(** * hoganff: the aggregation layer of [server.js]

    A shallow embedding of the request handlers of the dual-league
    dashboard back end ([getLeagueData], [getMatchups] and the
    [/api/league], [/api/roster] and [/api/matchup] handlers), together
    with the properties the specification states about them.

    Conventions of the embedding.
    - JavaScript numbers that count things (team ids, wins, weeks) are [Z],
      standing for the integers a double holds exactly ([Js.safe]); point
      totals are exact rationals [Q].  Rounding of point totals and numbers
      that are [NaN] or infinite in the provider's data are outside the
      model.
    - Strings are byte strings in UTF-8.
    - A property that may be [undefined] is an [option].
    - [teamsData] (the parsed [teams.json]) and the provider client are not
      part of [server.js]; they are parameters of every definition.
    - [Array.prototype.sort] is stable, and for a consistent comparator its
      result is determined ([sort_unique]): it is embedded as a stable
      insertion sort.  A comparison that is [NaN] counts as [+0]; the
      standard then leaves the order to the engine, and the embedding keeps
      to the insertion sort. *)

From Stdlib Require Import QArith Lqa Ascii String Sorting.Sorted Sorting.Permutation.
From stdpp Require Import base gmap strings list pretty.

Local Open Scope Z_scope.
Local Open Scope string_scope.

(** ** JavaScript primitives used by the handlers *)

Module Js.

(** [s || d] on a possibly undefined string: the empty string and
    [undefined] are falsy. *)
Definition or_string (s : option string) (d : string) : string :=
  match s with
  | Some (String c r) => String c r
  | _ => d
  end.

(** [n || d] on a possibly undefined number: zero and [undefined] are
    falsy. *)
Definition or_number (n : option Q) (d : Q) : Q :=
  match n with
  | Some q => if Qeq_bool q 0 then d else q
  | None => d
  end.

Definition or_int (n : option Z) (d : Z) : Z :=
  match n with
  | Some k => if (k =? 0)%Z then d else k
  | None => d
  end.

(** [o[k]] for an object literal [o] given by its own properties. *)
Fixpoint get {A} (o : list (string * A)) (k : string) : option A :=
  match o with
  | [] => None
  | (k', v) :: r => if bool_decide (k' = k) then Some v else get r k
  end.

(** [Number.isSafeInteger(n)]: the integers of absolute value below
    [2^53], which doubles hold exactly. *)
Definition safe (n : Z) : Prop := (Z.abs n < 9007199254740992)%Z.

(** [n.toString()] for a safe integer [n]: its decimal digits, with a minus
    sign when negative.  (The builtin writes exponent form from [1e21] on,
    far outside the safe integers.) *)
Definition toString (n : Z) : string := pretty n.

(** The own and inherited properties of [Object.prototype], which every
    object literal inherits: functions, and under [__proto__] the prototype
    object itself. *)
Definition object_prototype : list string :=
  ["constructor"; "__defineGetter__"; "__defineSetter__"; "hasOwnProperty";
   "__lookupGetter__"; "__lookupSetter__"; "isPrototypeOf";
   "propertyIsEnumerable"; "toString"; "valueOf"; "__proto__";
   "toLocaleString"].

(** [x - y] as [Array.prototype.sort] takes it from a comparator, for
    operands that are integers or, when [None], functions or objects: the
    difference of an operand that is not a number is [NaN], which the sort
    counts as [+0]. *)
Definition minus (x y : option Z) : Q :=
  match x, y with
  | Some a, Some b => inject_Z (a - b)
  | _, _ => 0%Q
  end.

(** [Array.prototype.find]. *)
Fixpoint find {A} (p : A → bool) (l : list A) : option A :=
  match l with
  | [] => None
  | x :: r => if p x then Some x else find p r
  end.

(** [Array.prototype.sort(cmp)]: [x] is moved past [y] only when the
    comparator says that [y] comes strictly first. *)
Section Sort.
Context {A : Type} (cmp : A → A → Q).

Definition before (x y : A) : bool := Qle_bool (cmp x y) 0.

Fixpoint insert (x : A) (l : list A) : list A :=
  match l with
  | [] => [x]
  | y :: r => if before x y then x :: y :: r else y :: insert x r
  end.

Definition sort (l : list A) : list A := foldr insert [] l.
End Sort.

(** [Object.values(o).reduce((a, b) => a + b, 0)]; the object is given by
    its own enumerable properties in enumeration order. *)
Definition sum_values (o : list (string * Q)) : Q :=
  foldl (λ a b, a + b)%Q 0%Q (snd <$> o).

(** [parseInt(s)] without a radix argument: leading white space is
    skipped, a sign and a [0x] prefix are recognised, the longest run of
    digits is read and its value is rounded to the nearest double.  [None]
    stands for [NaN] and for the infinities, which equal no id.  (Beyond
    twenty significant digits an engine may approximate further.) *)
Definition code (c : ascii) : Z := Z.of_N (N_of_ascii c).

(** The one-byte white space and line terminators. *)
Definition is_space (c : ascii) : bool :=
  let n := code c in
  (((9 <=? n) && (n <=? 13)) || (n =? 32))%Z.

(** The three-byte ones: U+1680, U+2000 to U+200A, U+2028, U+2029, U+202F,
    U+205F, U+3000 and U+FEFF. *)
Definition wide_space (n d e : Z) : bool :=
  ((n =? 225) && (d =? 154) && (e =? 128)
   || (n =? 226) && (d =? 128)
      && (((128 <=? e) && (e <=? 138)) || (e =? 168) || (e =? 169) || (e =? 175))
   || (n =? 226) && (d =? 129) && (e =? 159)
   || (n =? 227) && (d =? 128) && (e =? 128)
   || (n =? 239) && (d =? 187) && (e =? 191))%Z.

Fixpoint skip_space (s : string) : string :=
  match s with
  | String c r =>
      let n := code c in
      if is_space c then skip_space r
      else if (n =? 194)%Z then
        (* U+00A0 *)
        match r with
        | String d r1 => if (code d =? 160)%Z then skip_space r1 else s
        | EmptyString => s
        end
      else if ((n =? 225) || (n =? 226) || (n =? 227) || (n =? 239))%Z then
        match r with
        | String d (String e r2) =>
            if wide_space n (code d) (code e) then skip_space r2 else s
        | _ => s
        end
      else s
  | EmptyString => s
  end.

Definition digit_val (radix : Z) (c : ascii) : option Z :=
  let n := code c in
  let d := (if (48 <=? n) && (n <=? 57) then n - 48
            else if (97 <=? n) && (n <=? 122) then n - 87
            else if (65 <=? n) && (n <=? 90) then n - 55
            else radix)%Z in
  if (d <? radix)%Z then Some d else None.

Fixpoint digits (radix : Z) (s : string) (acc : option Z) : option Z :=
  match s with
  | String c r =>
      match digit_val radix c with
      | Some d => digits radix r (Some (radix * default 0 acc + d))
      | None => acc
      end
  | EmptyString => acc
  end.

(** The double nearest to an integer, ties to the even significand; [None]
    when it is infinite. *)
Definition to_double (n : Z) : option Z :=
  let a := Z.abs n in
  if (a <? 9007199254740992)%Z then Some n
  else
    let e := (Z.log2 a - 52)%Z in
    let q := (a / 2 ^ e)%Z in
    let r := (a mod 2 ^ e)%Z in
    let half := (2 ^ (e - 1))%Z in
    let q' := (if r <? half then q
               else if half <? r then q + 1
               else if Z.even q then q else q + 1)%Z in
    if (2 ^ 1024 <=? q' * 2 ^ e)%Z then None
    else Some (Z.sgn n * (q' * 2 ^ e))%Z.

Definition parseInt (s : string) : option Z :=
  let s1 := skip_space s in
  let '(sign, s2) :=
    match s1 with
    | String "-"%char r => (-1, r)
    | String "+"%char r => (1, r)
    | _ => (1, s1)
    end in
  let '(radix, s3) :=
    match s2 with
    | String "0"%char (String "x"%char r)
    | String "0"%char (String "X"%char r) => (16, r)
    | _ => (10, s2)
    end in
  digits radix s3 None ≫= λ v, to_double (sign * v).

(** [n === parseInt(s)] for an integer [n]: never true of [NaN]. *)
Definition eq_parsed (n : Z) (p : option Z) : bool :=
  match p with
  | Some m => (n =? m)%Z
  | None => false
  end.

End Js.

(** ** Data model *)

(** Records of the provider ([espn-fantasy-football-api]). *)
Module Team.
Record t := mk {
  id : Z;
  name : string;
  wins : Z;
  losses : Z;
  ties : Z;
  totalPointsScored : Q;
  regularSeasonPointsAgainst : Q }.
End Team.

Module Player.
Record t := mk {
  fullName : string;
  defaultPosition : string;
  proTeamAbbreviation : string;
  rosteredPosition : string;
  totalPoints : option Q;
  projectedPointBreakdown : option (list (string * Q)) }.
End Player.

Module Boxscore.
Record t := mk {
  homeTeamId : Z;
  awayTeamId : Z;
  homeScore : Q;
  awayScore : Q;
  homeRoster : list Player.t;
  awayRoster : list Player.t }.
End Boxscore.

Module LeagueInfo.
Record t := mk {
  name : string;
  currentMatchupPeriodId : Z;
  currentScoringPeriodId : Z }.
End LeagueInfo.

(** An entry of [teams.json]: [{ owner, wins }], [wins] being the list of
    championship years. *)
Module OwnerInfo.
Record t := mk {
  owner : option string;
  wins : option (list string) }.
End OwnerInfo.

(** Records the handlers build. *)
Module Standing.
Record t := mk {
  id : Z;
  name : string;
  owner : string;
  championships : list string;
  wins : Z;
  losses : Z;
  ties : Z;
  points : Q;
  pointsAgainst : Q }.
End Standing.

Module LeagueData.
Record t := mk {
  name : string;
  currentWeek : Z;
  standings : list Standing.t }.
End LeagueData.

Module Matchup.
Record t := mk {
  homeTeam : string;
  homeTeamId : Z;
  homeScore : Q;
  awayTeam : string;
  awayTeamId : Z;
  awayScore : Q }.
End Matchup.

Module League.
Record t := mk {
  data : LeagueData.t;
  matchups : list Matchup.t }.
End League.

Module RosterEntry.
Record t := mk {
  name : string;
  position : string;
  proTeam : string;
  isStarter : bool;
  slotPosition : string }.
End RosterEntry.

Module Roster.
Record t := mk {
  teamId : option Z;
  teamName : string;
  owner : string;
  championships : list string;
  roster : list RosterEntry.t }.
End Roster.

Module DetailEntry.
Record t := mk {
  name : string;
  position : string;
  points : Q;
  projected : Q }.
End DetailEntry.

Module Detail.
Record t := mk {
  homeTeam : string;
  homeOwner : string;
  homeScore : Q;
  homeRoster : list DetailEntry.t;
  homeChampionships : list string;
  awayTeam : string;
  awayOwner : string;
  awayScore : Q;
  awayChampionships : list string;
  awayRoster : list DetailEntry.t }.
End Detail.

(** ** The provider and the effects of a handler *)

Inductive client := greenClient | whiteClient.

Inductive call :=
  | GetLeagueInfo (c : client) (seasonId : Z)
  | GetTeamsAtWeek (c : client) (seasonId scoringPeriodId : Z)
  | GetBoxscoreForWeek (c : client) (seasonId matchupPeriodId scoringPeriodId : Z).

(** The provider is a black box: each call is answered with a rejection
    (carrying [error.message]) or with data, and the answer may depend on
    the calls issued before it. *)
Record provider := {
  getLeagueInfo : list call → client → Z → string + LeagueInfo.t;
  getTeamsAtWeek : list call → client → Z → Z → string + list Team.t;
  getBoxscoreForWeek : list call → client → Z → Z → Z → string + list Boxscore.t }.

(** An [async] computation: it reads the log of the provider calls issued
    so far, extends it, and either throws a message or returns. *)
Definition io (A : Type) : Type := list call → (string + A) * list call.

#[global] Instance io_ret : MRet io := λ A a h, (inr a, h).
#[global] Instance io_bind : MBind io := λ A B f m h,
  match m h with
  | (inl e, h') => (inl e, h')
  | (inr a, h') => f a h'
  end.

(** [await] of one provider call. *)
Definition await {A} (c : call) (answer : list call → string + A) : io A :=
  λ h, (answer h, (h ++ [c])%list).

(** [await Promise.all([p1, p2])]: both calls are issued, in this order,
    before either answer is looked at.  When both reject, the rejection of
    the first is taken. *)
Definition all {A B} (p1 : io A) (p2 : io B) : io (A * B) :=
  λ h, let '(r1, h1) := p1 h in
       let '(r2, h2) := p2 h1 in
       (match r1, r2 with
        | inl e, _ => inl e
        | _, inl e => inl e
        | inr a, inr b => inr (a, b)
        end, h2).

(** What a handler sends: [res.json(body)] or
    [res.status(code).json({ error })]. *)
Inductive response (A : Type) :=
  | Ok (body : A)
  | Error (code : Z) (error : string).
Arguments Ok {A} body.
Arguments Error {A} code error.

Definition status {A} (r : response A) : Z :=
  match r with
  | Ok _ => 200
  | Error code _ => code
  end.

(** [try { ... } catch (error) { res.status(500).json(...) }]. *)
Definition try_catch {A} (body : io (response A)) (h : list call)
  : response A * list call :=
  match body h with
  | (inl e, h') => (Error 500 e, h')
  | (inr r, h') => (r, h')
  end.

(** ** The handlers of [server.js] *)

Module Config.
Record t := mk {
  leagueId : Z;
  seasonId : Z }.
End Config.

(** The entry [teamMap[team.id]] of [getMatchups]. *)
Module TeamRef.
Record t := mk {
  name : string;
  id : Z }.
End TeamRef.

Definition positionOrder : list (string * Z) :=
  [("QB", 1); ("RB", 2); ("WR", 3); ("TE", 4); ("FLEX", 5); ("RB/WR/TE", 5);
   ("D/ST", 6); ("K", 7); ("Bench", 99); ("IR", 100)].

(** [positionOrder[slot] || 99]: the number of one of the ten own keys,
    [99] for a name the object does not have, and for a name it inherits
    from [Object.prototype] the inherited function or object, which is
    truthy and not a number ([None]). *)
Definition priority (slot : string) : option Z :=
  match Js.get positionOrder slot with
  | Some n => Some (Js.or_int (Some n) 99)
  | None => if bool_decide (slot ∈ Js.object_prototype) then None else Some 99
  end.

(** [slot !== 'Bench' && slot !== 'IR']. *)
Definition starter_slot (slot : string) : bool :=
  bool_decide (slot ≠ "Bench") && bool_decide (slot ≠ "IR").

(** The comparator of the standings sort (lines 71-74). *)
Definition standings_cmp (a b : Standing.t) : Q :=
  if bool_decide (Standing.wins b ≠ Standing.wins a)
  then inject_Z (Standing.wins b - Standing.wins a)
  else (Standing.points b - Standing.points a)%Q.

(** The comparator of the roster sort (lines 203-207). *)
Definition roster_cmp (a b : RosterEntry.t) : Q :=
  if RosterEntry.isStarter a && negb (RosterEntry.isStarter b) then (-1)%Q
  else if negb (RosterEntry.isStarter a) && RosterEntry.isStarter b then 1%Q
  else Js.minus (priority (RosterEntry.slotPosition a))
                (priority (RosterEntry.slotPosition b)).

(** The comparator of [formatRoster] (line 276). *)
Definition detail_cmp (a b : DetailEntry.t) : Q :=
  Js.minus (priority (DetailEntry.position a))
           (priority (DetailEntry.position b)).

(** The [map] callback of the roster handler (lines 197-203). *)
Definition roster_entry (player : Player.t) : RosterEntry.t :=
  {| RosterEntry.name := Player.fullName player;
     RosterEntry.position := Player.defaultPosition player;
     RosterEntry.proTeam := Player.proTeamAbbreviation player;
     RosterEntry.isStarter := starter_slot (Player.rosteredPosition player);
     RosterEntry.slotPosition := Player.rosteredPosition player |}.

(** The [map] callback of [formatRoster] (lines 269-275). *)
Definition detail_entry (player : Player.t) : DetailEntry.t :=
  {| DetailEntry.name := Player.fullName player;
     DetailEntry.position := Player.rosteredPosition player;
     DetailEntry.points := Js.or_number (Player.totalPoints player) 0;
     DetailEntry.projected :=
       match Player.projectedPointBreakdown player with
       | Some breakdown => Js.sum_values breakdown
       | None => 0%Q
       end |}.

Definition formatRoster (roster : list Player.t) : list DetailEntry.t :=
  Js.sort detail_cmp
    (detail_entry <$>
       filter (λ player, starter_slot (Player.rosteredPosition player)) roster).

Section Server.
(** [teams.json], the [LEAGUES] table and the two clients are fixed when
    the process starts. *)
Variable teamsData : gmap string (gmap string OwnerInfo.t).
Variable LEAGUES : client → Config.t.
Variable P : provider.

(** [teamsData[division]?.[key]]. *)
Definition ownerInfo_of (division key : string) : option OwnerInfo.t :=
  teamsData !! division ≫= λ teams, teams !! key.

(** [ownerInfo?.owner || '']. *)
Definition owner_of (ownerInfo : option OwnerInfo.t) : string :=
  Js.or_string (ownerInfo ≫= OwnerInfo.owner) EmptyString.

(** [ownerInfo?.wins?.filter(year => year !== '') || []]; an array, even
    an empty one, is truthy. *)
Definition championships_of (ownerInfo : option OwnerInfo.t) : list string :=
  match ownerInfo ≫= OwnerInfo.wins with
  | Some wins => filter (λ year, year ≠ EmptyString) wins
  | None => []
  end.

(** [LEAGUES[division]] and the choice of the client, for a division that
    passed the [includes] test. *)
Definition client_of (division : string) : client :=
  if bool_decide (division = "green") then greenClient else whiteClient.

Definition division_of (c : client) : string :=
  match c with
  | greenClient => "green"
  | whiteClient => "white"
  end.

Definition fetchLeagueInfo (c : client) (seasonId : Z) : io LeagueInfo.t :=
  await (GetLeagueInfo c seasonId) (λ h, getLeagueInfo P h c seasonId).

Definition fetchTeams (c : client) (seasonId scoringPeriodId : Z)
  : io (list Team.t) :=
  await (GetTeamsAtWeek c seasonId scoringPeriodId)
        (λ h, getTeamsAtWeek P h c seasonId scoringPeriodId).

Definition fetchBoxscores (c : client)
    (seasonId matchupPeriodId scoringPeriodId : Z) : io (list Boxscore.t) :=
  await (GetBoxscoreForWeek c seasonId matchupPeriodId scoringPeriodId)
        (λ h, getBoxscoreForWeek P h c seasonId matchupPeriodId scoringPeriodId).

(** The [map] callback of [getLeagueData] (lines 57-70). *)
Definition standing_of (division : string) (team : Team.t) : Standing.t :=
  let ownerInfo := ownerInfo_of division (Js.toString (Team.id team)) in
  {| Standing.id := Team.id team;
     Standing.name := Team.name team;
     Standing.owner := owner_of ownerInfo;
     Standing.championships := championships_of ownerInfo;
     Standing.wins := Team.wins team;
     Standing.losses := Team.losses team;
     Standing.ties := Team.ties team;
     Standing.points := Team.totalPointsScored team;
     Standing.pointsAgainst := Team.regularSeasonPointsAgainst team |}.

(** The Standings Builder: [teams.map(...).sort(...)]. *)
Definition build_standings (division : string) (teams : list Team.t)
  : list Standing.t :=
  Js.sort standings_cmp (standing_of division <$> teams).

Definition getLeagueData (c : client) (seasonId : Z) : io LeagueData.t :=
  leagueInfo ← fetchLeagueInfo c seasonId;
  teams ← fetchTeams c seasonId (LeagueInfo.currentScoringPeriodId leagueInfo);
  let division := division_of c in
  let standings := build_standings division teams in
  mret {| LeagueData.name := LeagueInfo.name leagueInfo;
          LeagueData.currentWeek := LeagueInfo.currentMatchupPeriodId leagueInfo;
          LeagueData.standings := standings |}.

(** [teams.forEach(team => { teamMap[team.id] = ... })]. *)
Definition build_teamMap (teams : list Team.t) : gmap Z TeamRef.t :=
  foldl (λ teamMap team,
           <[Team.id team := {| TeamRef.name := Team.name team;
                                TeamRef.id := Team.id team |}]> teamMap)
        ∅ teams.

(** The Matchup Summarizer: the [scoreboard.map(...)] of [getMatchups]. *)
Definition summarize (scoreboard : list Boxscore.t) (teams : list Team.t)
  : list Matchup.t :=
  let teamMap := build_teamMap teams in
  (λ matchup,
     {| Matchup.homeTeam :=
          Js.or_string (TeamRef.name <$> teamMap !! Boxscore.homeTeamId matchup)
                       "Unknown";
        Matchup.homeTeamId := Boxscore.homeTeamId matchup;
        Matchup.homeScore := Boxscore.homeScore matchup;
        Matchup.awayTeam :=
          Js.or_string (TeamRef.name <$> teamMap !! Boxscore.awayTeamId matchup)
                       "Unknown";
        Matchup.awayTeamId := Boxscore.awayTeamId matchup;
        Matchup.awayScore := Boxscore.awayScore matchup |}) <$> scoreboard.

Definition getMatchups (c : client) (seasonId week : Z) : io (list Matchup.t) :=
  '(scoreboard, teams) ← all (fetchBoxscores c seasonId week week)
                             (fetchTeams c seasonId week);
  mret (summarize scoreboard teams).

(** [['green', 'white'].includes(division)]. *)
Definition valid_division (division : string) : bool :=
  bool_decide (division ∈ ["green"; "white"]).

(** [GET /api/league/:division]. *)
Definition league_handler (division : string)
  : list call → response League.t * list call :=
  try_catch (
    if negb (valid_division division) then mret (Error 400 "Invalid division")
    else
      let client := client_of division in
      let config := LEAGUES client in
      data ← getLeagueData client (Config.seasonId config);
      matchups ← getMatchups client (Config.seasonId config)
                             (LeagueData.currentWeek data);
      mret (Ok {| League.data := data; League.matchups := matchups |})).

(** The two fetches every team-scoped handler starts with. *)
Definition fetchWeek (client : client) (config : Config.t)
  : io (list Boxscore.t * list Team.t) :=
  leagueInfo ← fetchLeagueInfo client (Config.seasonId config);
  all (fetchBoxscores client (Config.seasonId config)
         (LeagueInfo.currentMatchupPeriodId leagueInfo)
         (LeagueInfo.currentScoringPeriodId leagueInfo))
      (fetchTeams client (Config.seasonId config)
         (LeagueInfo.currentScoringPeriodId leagueInfo)).

(** The Roster Formatter: [roster.map(...).sort(...)]. *)
Definition format_roster (roster : list Player.t) : list RosterEntry.t :=
  Js.sort roster_cmp (roster_entry <$> roster).

(** The [find] of the roster handler (lines 179-181). *)
Definition find_team_boxscore (boxscores : list Boxscore.t) (teamId : string)
  : option Boxscore.t :=
  Js.find (λ box, Js.eq_parsed (Boxscore.homeTeamId box) (Js.parseInt teamId)
                  || Js.eq_parsed (Boxscore.awayTeamId box) (Js.parseInt teamId))
          boxscores.

(** Lines 187-215: the answer once the boxscore has been located. *)
Definition roster_body (division teamId : string) (teamBoxscore : Boxscore.t)
    (teams : list Team.t) : Roster.t :=
  let team := Js.find (λ t, Js.eq_parsed (Team.id t) (Js.parseInt teamId)) teams in
  let ownerInfo := ownerInfo_of division teamId in
  let isHome := Js.eq_parsed (Boxscore.homeTeamId teamBoxscore) (Js.parseInt teamId) in
  let roster := if isHome then Boxscore.homeRoster teamBoxscore
                else Boxscore.awayRoster teamBoxscore in
  let formattedRoster := format_roster roster in
  {| Roster.teamId := Js.parseInt teamId;
     Roster.teamName := Js.or_string (Team.name <$> team) "Unknown";
     Roster.owner := owner_of ownerInfo;
     Roster.championships := championships_of ownerInfo;
     Roster.roster := formattedRoster |}.

(** [GET /api/roster/:division/:teamId]. *)
Definition roster_handler (division teamId : string)
  : list call → response Roster.t * list call :=
  try_catch (
    if negb (valid_division division) then mret (Error 400 "Invalid division")
    else
      let client := client_of division in
      let config := LEAGUES client in
      '(boxscores, teams) ← fetchWeek client config;
      match find_team_boxscore boxscores teamId with
      | None => mret (Error 404 "Team not found")
      | Some teamBoxscore =>
          mret (Ok (roster_body division teamId teamBoxscore teams))
      end).

(** The [find] of the matchup handler (lines 245-248). *)
Definition find_matchup (boxscores : list Boxscore.t)
    (homeTeamId awayTeamId : string) : option Boxscore.t :=
  Js.find (λ box,
             (Js.eq_parsed (Boxscore.homeTeamId box) (Js.parseInt homeTeamId)
              && Js.eq_parsed (Boxscore.awayTeamId box) (Js.parseInt awayTeamId))
             || (Js.eq_parsed (Boxscore.homeTeamId box) (Js.parseInt awayTeamId)
                 && Js.eq_parsed (Boxscore.awayTeamId box) (Js.parseInt homeTeamId)))
          boxscores.

(** Lines 254-290: the answer once the matchup has been located. *)
Definition detail_body (division : string) (matchup : Boxscore.t)
    (teams : list Team.t) : Detail.t :=
  let homeTeam := Js.find (λ t, bool_decide (Team.id t = Boxscore.homeTeamId matchup)) teams in
  let awayTeam := Js.find (λ t, bool_decide (Team.id t = Boxscore.awayTeamId matchup)) teams in
  let homeInfo := ownerInfo_of division (Js.toString (Boxscore.homeTeamId matchup)) in
  let awayInfo := ownerInfo_of division (Js.toString (Boxscore.awayTeamId matchup)) in
  {| Detail.homeTeam := Js.or_string (Team.name <$> homeTeam) "Unknown";
     Detail.homeOwner := owner_of homeInfo;
     Detail.homeScore := Boxscore.homeScore matchup;
     Detail.homeRoster := formatRoster (Boxscore.homeRoster matchup);
     Detail.homeChampionships := championships_of homeInfo;
     Detail.awayTeam := Js.or_string (Team.name <$> awayTeam) "Unknown";
     Detail.awayOwner := owner_of awayInfo;
     Detail.awayScore := Boxscore.awayScore matchup;
     Detail.awayChampionships := championships_of awayInfo;
     Detail.awayRoster := formatRoster (Boxscore.awayRoster matchup) |}.

(** [GET /api/matchup/:division/:homeTeamId/:awayTeamId]. *)
Definition matchup_handler (division homeTeamId awayTeamId : string)
  : list call → response Detail.t * list call :=
  try_catch (
    if negb (valid_division division) then mret (Error 400 "Invalid division")
    else
      let client := client_of division in
      let config := LEAGUES client in
      '(boxscores, teams) ← fetchWeek client config;
      match find_matchup boxscores homeTeamId awayTeamId with
      | None => mret (Error 404 "Matchup not found")
      | Some matchup => mret (Ok (detail_body division matchup teams))
      end).
End Server.

(** * Vocabulary of the properties *)

(** The slot-priority table as the specification states it: the ten listed
    slots, and 99 for every other slot. *)
Definition table_priority (slot : string) : Z :=
  Js.or_int (Js.get positionOrder slot) 99.

(** The two roster comparators read on that table. *)
Definition roster_table_cmp (a b : RosterEntry.t) : Q :=
  if RosterEntry.isStarter a && negb (RosterEntry.isStarter b) then (-1)%Q
  else if negb (RosterEntry.isStarter a) && RosterEntry.isStarter b then 1%Q
  else inject_Z (table_priority (RosterEntry.slotPosition a)
                 - table_priority (RosterEntry.slotPosition b)).

Definition detail_table_cmp (a b : DetailEntry.t) : Q :=
  inject_Z (table_priority (DetailEntry.position a)
            - table_priority (DetailEntry.position b)).

(** A slot name that is no property of [Object.prototype]: every slot name
    of the provider is one. *)
Definition plain_slot (slot : string) : Prop := slot ∉ Js.object_prototype.

Definition plain_slots (roster : list Player.t) : Prop :=
  Forall (λ player, plain_slot (Player.rosteredPosition player)) roster.

(** [cmp_le cmp x y]: the comparator does not put [y] strictly first. *)
Definition cmp_le {A} (cmp : A → A → Q) (x y : A) : Prop :=
  Js.before cmp x y = true.

(** [tied cmp x y]: the comparator orders [x] and [y] neither way. *)
Definition tied {A} (cmp : A → A → Q) (x y : A) : Prop :=
  cmp_le cmp x y ∧ cmp_le cmp y x.

#[global] Instance tied_dec {A} (cmp : A → A → Q) (x y : A) :
  Decision (tied cmp x y).
Proof. unfold tied, cmp_le. apply _. Defined.

#[global] Instance Qeq_decision (x y : Q) : Decision (x == y)%Q := Qeq_dec x y.

(** The order the specification asks of adjacent standings. *)
Definition standings_order (a b : Standing.t) : Prop :=
  Standing.wins a > Standing.wins b ∨
  (Standing.wins a = Standing.wins b ∧ (Standing.points b <= Standing.points a)%Q).

(** [out] is [years] with exactly the empty strings removed: it is a
    subsequence of [years] (order kept), holds no empty string, and is
    shorter than [years] by just the number of empty entries. *)
Definition empties_removed (years out : list string) : Prop :=
  out `sublist_of` years ∧
  (EmptyString ∉ out) ∧
  (length out + length (filter (λ year, year = EmptyString) years)
   = length years)%nat.

(** The order of the roster sort: starters first, then by slot priority. *)
Definition roster_order (a b : RosterEntry.t) : Prop :=
  (RosterEntry.isStarter a = true ∧ RosterEntry.isStarter b = false) ∨
  (RosterEntry.isStarter a = RosterEntry.isStarter b ∧
   (table_priority (RosterEntry.slotPosition a)
    ≤ table_priority (RosterEntry.slotPosition b))%Z).

Definition by_priority (a b : RosterEntry.t) : Prop :=
  (table_priority (RosterEntry.slotPosition a)
   ≤ table_priority (RosterEntry.slotPosition b))%Z.

(** The order the specification states of a formatted roster: starters,
    then bench and IR, each part in non-decreasing priority of the table. *)
Definition roster_in_table_order (roster : list Player.t) : Prop :=
  let out := format_roster roster in
  let starters := filter (λ e, RosterEntry.isStarter e = true) out in
  let bench := filter (λ e, RosterEntry.isStarter e = false) out in
  out = (starters ++ bench)%list ∧
  Sorted by_priority starters ∧
  Sorted by_priority bench.

(** The values of the table. *)
Definition priority_table : Prop :=
  table_priority "QB" = 1 ∧ table_priority "RB" = 2 ∧ table_priority "WR" = 3 ∧
  table_priority "TE" = 4 ∧ table_priority "FLEX" = 5 ∧ table_priority "RB/WR/TE" = 5 ∧
  table_priority "D/ST" = 6 ∧ table_priority "K" = 7 ∧ table_priority "Bench" = 99 ∧
  table_priority "IR" = 100 ∧
  ∀ slot, slot ∉ ["QB"; "RB"; "WR"; "TE"; "FLEX"; "RB/WR/TE"; "D/ST"; "K";
                  "Bench"; "IR"] → table_priority slot = 99.

(** The sum of a list of point values. *)
Definition total (values : list Q) : Q := foldr Qplus 0%Q values.

Definition teamRef_of (team : Team.t) : TeamRef.t :=
  {| TeamRef.name := Team.name team; TeamRef.id := Team.id team |}.

(** The reading of the specification for one roster query: a validation
    error (a division token other than [green] and [white], or a team id
    that is not a number) is answered without any provider call, and not
    with the status of upstream-fetch errors. *)
Definition validated_before_upstream
    (teamsData : gmap string (gmap string OwnerInfo.t))
    (LEAGUES : client → Config.t) (P : provider)
    (division teamId : string) (h : list call) : Prop :=
  ¬ (division = "green" ∨ division = "white") ∨ Js.parseInt teamId = None →
  (roster_handler teamsData LEAGUES P division teamId h).2 = h ∧
  status (roster_handler teamsData LEAGUES P division teamId h).1 ≠ 500.

(** [out] holds the records of exactly the players of [roster] that are
    neither on the bench nor on injured reserve, in some order. *)
Definition starters_only (roster : list Player.t) (out : list DetailEntry.t)
  : Prop :=
  (∀ e, e ∈ out →
     DetailEntry.position e ≠ "Bench" ∧ DetailEntry.position e ≠ "IR") ∧
  out ≡ₚ detail_entry <$>
           filter (λ player, Player.rosteredPosition player ≠ "Bench" ∧
                             Player.rosteredPosition player ≠ "IR") roster.

(** Strings that start with a decimal digit followed by the end of the
    string or by another decimal digit. *)
Definition digit_or_end (s : string) : Prop :=
  match s with
  | String c _ => ∃ k, (k < 10)%N ∧ c = pretty_N_char k
  | EmptyString => True
  end.

Definition plain_decimal (s : string) : Prop :=
  match s with
  | String c r => (∃ k, (k < 10)%N ∧ c = pretty_N_char k) ∧ digit_or_end r
  | EmptyString => False
  end.

(** The team with this id plays in the boxscore. *)
Definition plays (id : Z) (box : Boxscore.t) : Prop :=
  Boxscore.homeTeamId box = id ∨ Boxscore.awayTeamId box = id.

(** The boxscore opposes the teams with these two ids, either way round. *)
Definition opposes (x y : Z) (box : Boxscore.t) : Prop :=
  (Boxscore.homeTeamId box = x ∧ Boxscore.awayTeamId box = y) ∨
  (Boxscore.homeTeamId box = y ∧ Boxscore.awayTeamId box = x).

(** The client a provider call is addressed to. *)
Definition call_client (c : call) : client :=
  match c with
  | GetLeagueInfo c _ => c
  | GetTeamsAtWeek c _ _ => c
  | GetBoxscoreForWeek c _ _ _ => c
  end.

(** The three calls of a team-scoped handler, and the four of the league
    handler, once the league info is known. *)
Definition week_calls (c : client) (seasonId : Z) (info : LeagueInfo.t)
  : list call :=
  [GetLeagueInfo c seasonId;
   GetBoxscoreForWeek c seasonId (LeagueInfo.currentMatchupPeriodId info)
                      (LeagueInfo.currentScoringPeriodId info);
   GetTeamsAtWeek c seasonId (LeagueInfo.currentScoringPeriodId info)].

Definition league_calls (c : client) (seasonId : Z) (info : LeagueInfo.t)
  : list call :=
  [GetLeagueInfo c seasonId;
   GetTeamsAtWeek c seasonId (LeagueInfo.currentScoringPeriodId info);
   GetBoxscoreForWeek c seasonId (LeagueInfo.currentMatchupPeriodId info)
                      (LeagueInfo.currentMatchupPeriodId info);
   GetTeamsAtWeek c seasonId (LeagueInfo.currentMatchupPeriodId info)].

(** The comparators of the two roster sorts, read on the players. *)
Definition roster_cmp_players (p q : Player.t) : Q :=
  roster_table_cmp (roster_entry p) (roster_entry q).

Definition detail_cmp_players (p q : Player.t) : Q :=
  detail_table_cmp (detail_entry p) (detail_entry q).

(** ** Concrete data for the examples *)

(** A registry with a placeholder among the championship years. *)
Definition registry_example : gmap string (gmap string OwnerInfo.t) :=
  {[ "green" := {[ "7" := OwnerInfo.mk (Some "Pat") (Some ["2019"; EmptyString; "2021"]) ]} ]}.

Definition leagues_example (c : client) : Config.t :=
  match c with
  | greenClient => Config.mk 1001 2025
  | whiteClient => Config.mk 1002 2025
  end.

Definition player_example (slot name : string) : Player.t :=
  Player.mk name "WR" "DAL" slot (Some 10%Q) None.

Definition boxscore_example : Boxscore.t :=
  Boxscore.mk 1 2 (101 # 1) (88 # 1)
    [player_example "K" "H1"; player_example "Bench" "H2"; player_example "QB" "H3"]
    [player_example "IR" "A1"; player_example "WR" "A2"].

Definition teams_example : list Team.t :=
  [Team.mk 1 "One" 8 0 0 1200 900; Team.mk 2 "Two" 8 0 0 1150 900].

(** A provider that answers, and one whose every call rejects. *)
Definition provider_example : provider :=
  {| getLeagueInfo := λ _ _ _, inr (LeagueInfo.mk "League" 3 3);
     getTeamsAtWeek := λ _ _ _ _, inr teams_example;
     getBoxscoreForWeek := λ _ _ _ _ _, inr [boxscore_example] |}.

Definition provider_down : provider :=
  {| getLeagueInfo := λ _ _ _, inl "ECONNRESET";
     getTeamsAtWeek := λ _ _ _ _, inl "ECONNRESET";
     getBoxscoreForWeek := λ _ _ _ _ _, inl "ECONNRESET" |}.

(** A provider whose boxscore call rejects while the others answer. *)
Definition provider_partial : provider :=
  {| getLeagueInfo := λ _ _ _, inr (LeagueInfo.mk "League" 3 3);
     getTeamsAtWeek := λ _ _ _ _, inr teams_example;
     getBoxscoreForWeek := λ _ _ _ _ _, inl "ETIMEDOUT" |}.

Definition calls_example : list call :=
  [GetLeagueInfo greenClient 2025; GetBoxscoreForWeek greenClient 2025 3 3;
   GetTeamsAtWeek greenClient 2025 3].

(** * Properties *)

(** ** JavaScript primitives *)

Example toString_7 : Js.toString 7 = "7".
Proof. reflexivity. Qed.
Example toString_m12 : Js.toString (-12) = "-12".
Proof. reflexivity. Qed.
Example parseInt_examples :
  Js.parseInt "7" = Some 7 ∧ Js.parseInt "07" = Some 7 ∧
  Js.parseInt "7abc" = Some 7 ∧ Js.parseInt " -3" = Some (-3) ∧
  Js.parseInt "0x1F" = Some 31 ∧ Js.parseInt "abc" = None ∧
  Js.parseInt EmptyString = None ∧ Js.parseInt "0x" = None.
Proof. repeat split; reflexivity. Qed.

(** ** [Array.prototype.sort] *)

Section SortFacts.
Context {A : Type} (cmp : A → A → Q).

Lemma insert_Permutation x l : Js.insert cmp x l ≡ₚ x :: l.
Proof.
  induction l as [|y r IH]; simpl; [done|].
  destruct (Js.before cmp x y); [done|].
  rewrite IH. apply Permutation_swap.
Qed.

Lemma sort_Permutation l : Js.sort cmp l ≡ₚ l.
Proof.
  induction l as [|x r IH]; simpl; [done|].
  rewrite insert_Permutation. by f_equiv.
Qed.

Lemma sort_length l : length (Js.sort cmp l) = length l.
Proof. by rewrite sort_Permutation. Qed.

(** Entries that the comparator never orders strictly keep their order. *)
Lemma insert_filter (C : A → Prop) `{!∀ x, Decision (C x)} x l :
  (∀ y, C x → C y → Js.before cmp x y = true) →
  filter C (Js.insert cmp x l) = filter C (x :: l).
Proof.
  intros Htie. induction l as [|y r IH]; simpl; [done|].
  destruct (Js.before cmp x y) eqn:Hxy; [done|].
  rewrite filter_cons, IH, !filter_cons.
  destruct (decide (C y)) as [Hy|Hy], (decide (C x)) as [Hx|Hx]; try done.
  rewrite Htie in Hxy; done.
Qed.

Lemma sort_stable (C : A → Prop) `{!∀ x, Decision (C x)} l :
  (∀ x y, C x → C y → Js.before cmp x y = true) →
  filter C (Js.sort cmp l) = filter C l.
Proof.
  intros Htie. induction l as [|x r IH]; simpl; [done|].
  rewrite insert_filter by eauto.
  by rewrite !filter_cons, IH.
Qed.

(** For a comparator that orders any two entries one way or the other,
    the result is sorted. *)
Hypothesis total : ∀ x y, Js.before cmp x y = false → Js.before cmp y x = true.

Lemma insert_Sorted x l :
  Sorted (cmp_le cmp) l → Sorted (cmp_le cmp) (Js.insert cmp x l).
Proof.
  induction 1 as [|y r Hr IH Hy]; simpl.
  - repeat constructor.
  - destruct (Js.before cmp x y) eqn:Hxy.
    + constructor; [by constructor | by constructor].
    + constructor; [done|].
      destruct Hy as [|z r' Hz]; simpl.
      * constructor. by apply total.
      * destruct (Js.before cmp x z); constructor; [by apply total | done].
Qed.

Lemma sort_Sorted l : Sorted (cmp_le cmp) (Js.sort cmp l).
Proof.
  induction l as [|x r IH]; simpl; [constructor|].
  by apply insert_Sorted.
Qed.
(** With a transitive comparator the result of a stable sort is
    determined: whatever rearrangement of [l] is sorted and keeps tied
    entries in their order is the list [Js.sort] computes. *)
Hypothesis trans : ∀ x y z,
  Js.before cmp x y = true → Js.before cmp y z = true →
  Js.before cmp x z = true.

Lemma sorted_stable_unique l1 l2 :
  l1 ≡ₚ l2 →
  StronglySorted (cmp_le cmp) l1 → StronglySorted (cmp_le cmp) l2 →
  (∀ x, filter (tied cmp x) l1 = filter (tied cmp x) l2) →
  l1 = l2.
Proof.
  intros Hperm Hs1. revert l2 Hperm.
  induction Hs1 as [|a r1 Hr1 IH Ha]; intros l2 Hperm Hs2 Hst.
  - by apply Permutation_nil_l in Hperm.
  - destruct Hs2 as [|b r2 Hr2 Hb].
    { by apply Permutation_nil_r in Hperm. }
    rewrite Forall_forall in Ha, Hb.
    assert (∀ x, cmp_le cmp x x) as Hrefl.
    { intros x. unfold cmp_le.
      destruct (Js.before cmp x x) eqn:E; [done|]. by rewrite total in E. }
    pose proof (Hrefl a) as Haa. pose proof (Hrefl b) as Hbb.
    assert (tied cmp a b) as Hab.
    { split.
      - assert (b ∈ a :: r1) as [->|Hin]%elem_of_cons
          by (rewrite Hperm; left); auto.
      - assert (a ∈ b :: r2) as [->|Hin]%elem_of_cons
          by (rewrite <- Hperm; left); auto. }
    assert (a = b) as <-.
    { specialize (Hst a). rewrite !filter_cons in Hst.
      rewrite decide_True in Hst by done.
      rewrite (decide_True (P := tied cmp a b)) in Hst by done.
      congruence. }
    f_equal. apply IH; [by eapply Permutation_cons_inv|done|].
    intros x. specialize (Hst x). rewrite !filter_cons in Hst.
    destruct (decide (tied cmp x a)); congruence.
Qed.

Lemma sort_unique l l' :
  l' ≡ₚ l → Sorted (cmp_le cmp) l' →
  (∀ x, filter (tied cmp x) l' = filter (tied cmp x) l) →
  l' = Js.sort cmp l.
Proof.
  assert (Transitive (cmp_le cmp)) as Htrans by (intros x y z; apply trans).
  intros Hperm Hsorted Hst. apply sorted_stable_unique.
  - by rewrite sort_Permutation.
  - by apply Sorted_StronglySorted.
  - apply Sorted_StronglySorted; [done|apply sort_Sorted].
  - intros x. rewrite Hst. symmetry. apply sort_stable.
    intros y z [_ Hyx] [Hxz _]. by eapply trans.
Qed.
End SortFacts.

Lemma Sorted_adjacent {A} (R : A → A → Prop) (l : list A) i a b :
  Sorted R l → l !! i = Some a → l !! S i = Some b → R a b.
Proof.
  intros Hs. revert i. induction Hs as [|x r Hr IH Hx]; intros i Ha Hb; [done|].
  destruct i as [|i]; simpl in *.
  - destruct Hx as [|y r' Hxy]; simpl in *; by simplify_eq.
  - eauto.
Qed.

Lemma filter_fmap {A B} (f : A → B) (C : B → Prop) `{!∀ y, Decision (C y)}
    (l : list A) :
  filter C (f <$> l) = f <$> filter (λ x, C (f x)) l.
Proof.
  induction l as [|x r IH]; [done|].
  rewrite fmap_cons, !filter_cons, IH.
  by destruct (decide (C (f x))).
Qed.

(** ** Standings Builder *)

Lemma standings_cmp_le a b : cmp_le standings_cmp a b ↔ standings_order a b.
Proof.
  unfold cmp_le, Js.before, standings_cmp, standings_order.
  rewrite Qle_bool_iff. case_bool_decide as Hw.
  - change 0%Q with (inject_Z 0). rewrite <- Zle_Qle. lia.
  - split.
    + intros Hp. right. split; [lia|lra].
    + intros [?|[_ Hp]]; [lia|lra].
Qed.

Lemma standings_cmp_total a b :
  Js.before standings_cmp a b = false → Js.before standings_cmp b a = true.
Proof.
  intros Hab. apply standings_cmp_le.
  assert (¬ standings_order a b) as Hn.
  { rewrite <- standings_cmp_le. unfold cmp_le. by rewrite Hab. }
  unfold standings_order in *.
  destruct (Z.lt_trichotomy (Standing.wins a) (Standing.wins b)) as [?|[?|?]];
    [left; lia| |exfalso; apply Hn; left; lia].
  right. split; [done|].
  destruct (Qlt_le_dec (Standing.points a) (Standing.points b)) as [?|?];
    [lra|exfalso; apply Hn; right; done].
Qed.

Lemma standings_cmp_trans a b c :
  Js.before standings_cmp a b = true → Js.before standings_cmp b c = true →
  Js.before standings_cmp a c = true.
Proof.
  intros Hab%standings_cmp_le Hbc%standings_cmp_le. apply standings_cmp_le.
  unfold standings_order in *.
  destruct Hab as [?|[? ?]], Hbc as [?|[? ?]];
    [left; lia|left; lia|left; lia|right; split; [lia|lra]].
Qed.

(** Any stable sort of the joined records by this comparator yields the
    standings of [build_standings]. *)
Lemma build_standings_determined teamsData division teams out :
  out ≡ₚ standing_of teamsData division <$> teams →
  Sorted (cmp_le standings_cmp) out →
  (∀ s, filter (tied standings_cmp s) out
        = filter (tied standings_cmp s) (standing_of teamsData division <$> teams)) →
  out = build_standings teamsData division teams.
Proof.
  apply sort_unique; [apply standings_cmp_total|apply standings_cmp_trans].
Qed.

(** C1. The standings are sorted by wins descending, ties broken by points
    descending: every adjacent pair of the output satisfies
    [earlier.wins > later.wins], or equal wins and
    [earlier.points >= later.points].  The sort is stable: the entries with
    a given number of wins and a given point total appear in the order of
    their teams in the input. *)
Theorem standings_sorted_stable
    (teamsData : gmap string (gmap string OwnerInfo.t))
    (division : string) (teams : list Team.t) :
  let out := build_standings teamsData division teams in
  (∀ i a b, out !! i = Some a → out !! S i = Some b → standings_order a b) ∧
  (∀ w p,
     filter (λ s, Standing.wins s = w ∧ (Standing.points s == p)%Q) out
     = standing_of teamsData division <$>
         filter (λ t, Team.wins t = w ∧ (Team.totalPointsScored t == p)%Q) teams) ∧
  out ≡ₚ standing_of teamsData division <$> teams.
Proof.
  intros out. split; [|split].
  - intros i a b Ha Hb. apply standings_cmp_le.
    eapply (Sorted_adjacent (cmp_le standings_cmp)); [|exact Ha|exact Hb].
    apply sort_Sorted, standings_cmp_total.
  - intros w p. unfold out, build_standings.
    rewrite sort_stable.
    + by rewrite filter_fmap.
    + intros x y [Hx Hxp] [Hy Hyp]. apply standings_cmp_le.
      right. split; [congruence|]. rewrite Hxp, Hyp. apply Qle_refl.
  - apply sort_Permutation.
Qed.

(** The end-to-end example of the specification: equal wins, the higher
    point total first, empty registry. *)
Example standings_example :
  let t1 := Team.mk 1 "One" 8 0 0 1200 900 in
  let t2 := Team.mk 2 "Two" 8 0 0 1150 900 in
  build_standings ∅ "green" [t2; t1]
  = [Standing.mk 1 "One" EmptyString [] 8 0 0 1200 900;
     Standing.mk 2 "Two" EmptyString [] 8 0 0 1150 900].
Proof. reflexivity. Qed.

Lemma owner_of_None : owner_of None = EmptyString.
Proof. reflexivity. Qed.

Lemma championships_of_None : championships_of None = [].
Proof. reflexivity. Qed.

(** C2. The ownership join is total: the standings hold exactly one record
    per input team (they are a rearrangement of the joined records, one for
    each team), and a record whose team id has no entry in the registry of
    the division has the empty owner string and the empty championship list. *)
Theorem ownership_join_total
    (teamsData : gmap string (gmap string OwnerInfo.t))
    (division : string) (teams : list Team.t) :
  let out := build_standings teamsData division teams in
  length out = length teams ∧
  (Standing.id <$> out) ≡ₚ (Team.id <$> teams) ∧
  (∀ team, team ∈ teams →
     ∃ s, s ∈ out ∧ Standing.id s = Team.id team ∧
          Standing.name s = Team.name team ∧
          Standing.wins s = Team.wins team ∧
          Standing.points s = Team.totalPointsScored team) ∧
  (∀ s, s ∈ out →
     ownerInfo_of teamsData division (Js.toString (Standing.id s)) = None →
     Standing.owner s = EmptyString ∧ Standing.championships s = []).
Proof.
  intros out.
  assert (out ≡ₚ standing_of teamsData division <$> teams) as Hperm
    by apply sort_Permutation.
  split; [|split; [|split]].
  - by rewrite Hperm, length_fmap.
  - rewrite Hperm, <- list_fmap_compose. done.
  - intros team Hin. exists (standing_of teamsData division team).
    split; [|done]. rewrite Hperm. by apply list_elem_of_fmap_2.
  - intros s Hs Hnone. rewrite Hperm in Hs.
    apply list_elem_of_fmap in Hs as (team & -> & _).
    simpl in Hnone. unfold standing_of. simpl. by rewrite Hnone.
Qed.

(** When both fetches succeed, [getLeagueData] returns the standings the
    builder makes of the fetched teams, for the division of the client. *)
Lemma getLeagueData_ok teamsData P c seasonId h info teams :
  getLeagueInfo P h c seasonId = inr info →
  getTeamsAtWeek P (h ++ [GetLeagueInfo c seasonId])%list c seasonId
                 (LeagueInfo.currentScoringPeriodId info) = inr teams →
  getLeagueData teamsData P c seasonId h
  = (inr {| LeagueData.name := LeagueInfo.name info;
            LeagueData.currentWeek := LeagueInfo.currentMatchupPeriodId info;
            LeagueData.standings :=
              build_standings teamsData (division_of c) teams |},
     (h ++ [GetLeagueInfo c seasonId;
            GetTeamsAtWeek c seasonId (LeagueInfo.currentScoringPeriodId info)])%list).
Proof.
  intros Hinfo Hteams.
  unfold getLeagueData, mbind, io_bind, fetchLeagueInfo, fetchTeams, await.
  rewrite Hinfo, Hteams. simpl. by rewrite <- app_assoc.
Qed.

(** ** Championship filtering *)

Lemma filter_empties_removed (years : list string) :
  empties_removed years (filter (λ year, year ≠ EmptyString) years).
Proof.
  split; [apply sublist_filter|split].
  - rewrite list_elem_of_filter. by intros [? _].
  - induction years as [|y r IH]; [done|].
    rewrite !filter_cons.
    destruct (decide (y ≠ EmptyString)), (decide (y = EmptyString));
      simpl; try done; lia.
Qed.

Lemma championships_of_Some info years :
  OwnerInfo.wins info = Some years →
  championships_of (Some info) = filter (λ year, year ≠ EmptyString) years.
Proof. unfold championships_of. simpl. by intros ->. Qed.

(** C3. Wherever championships are emitted (standings, roster, both sides
    of the matchup detail), the list is the registry's list of the team
    with exactly the empty-string entries removed and the others kept in
    their order. *)
Theorem championships_filtered
    (teamsData : gmap string (gmap string OwnerInfo.t))
    (division key : string) (info : OwnerInfo.t) (years : list string) :
  ownerInfo_of teamsData division key = Some info →
  OwnerInfo.wins info = Some years →
  (∀ team, Js.toString (Team.id team) = key →
     empties_removed years
       (Standing.championships (standing_of teamsData division team))) ∧
  (∀ teamBoxscore teams,
     empties_removed years
       (Roster.championships
          (roster_body teamsData division key teamBoxscore teams))) ∧
  (∀ matchup teams,
     Js.toString (Boxscore.homeTeamId matchup) = key →
     empties_removed years
       (Detail.homeChampionships (detail_body teamsData division matchup teams))) ∧
  (∀ matchup teams,
     Js.toString (Boxscore.awayTeamId matchup) = key →
     empties_removed years
       (Detail.awayChampionships (detail_body teamsData division matchup teams))).
Proof.
  intros Hinfo Hyears.
  pose proof (filter_empties_removed years) as Hf.
  rewrite <- (championships_of_Some info years Hyears), <- Hinfo in Hf.
  repeat split; try (by intros; subst key; apply Hf); by intros; apply Hf.
Qed.

Example championships_example :
  championships_of (ownerInfo_of registry_example "green" "7") = ["2019"; "2021"].
Proof. vm_compute. reflexivity. Qed.

Lemma championships_filtered_witness :
  empties_removed ["2019"; EmptyString; "2021"]
    (Standing.championships
       (standing_of registry_example "green" (Team.mk 7 "Seven" 3 2 0 500 480))).
Proof.
  apply (championships_filtered registry_example "green" "7"
           (OwnerInfo.mk (Some "Pat") (Some ["2019"; EmptyString; "2021"]))
           ["2019"; EmptyString; "2021"]).
  - vm_compute. reflexivity.
  - reflexivity.
  - reflexivity.
Defined.

(** ** Roster Formatter *)

Section SortedFacts.
Context {A : Type}.

Lemma Sorted_weaken (R R' : relation A) (l : list A) :
  (∀ a b, R a b → R' a b) → Sorted R l → Sorted R' l.
Proof.
  intros HR. induction 1 as [|x r Hr IH Hx]; constructor; [done|].
  destruct Hx; constructor. auto.
Qed.

Lemma StronglySorted_filter (R : relation A) (C : A → Prop)
    `{!∀ x, Decision (C x)} (l : list A) :
  StronglySorted R l → StronglySorted R (filter C l).
Proof.
  induction 1 as [|x r Hr IH Hx]; [constructor|].
  rewrite filter_cons. destruct (decide (C x)); [|done].
  constructor; [done|].
  rewrite Forall_forall in Hx. apply Forall_forall.
  intros y [_ Hy]%list_elem_of_filter. auto.
Qed.

Lemma StronglySorted_weaken (R R' : relation A) (C : A → Prop) (l : list A) :
  (∀ a b, C a → C b → R a b → R' a b) →
  Forall C l → StronglySorted R l → StronglySorted R' l.
Proof.
  intros HR HC Hs. induction Hs as [|x r Hr IH Hx]; [constructor|].
  apply Forall_cons in HC as [Hcx Hcr].
  constructor; [auto|].
  rewrite Forall_forall in *. eauto.
Qed.

Lemma filter_all (C : A → Prop) `{!∀ x, Decision (C x)} (l : list A) :
  Forall C l → filter C l = l.
Proof.
  induction 1 as [|x r Hx Hr IH]; [done|].
  by rewrite filter_cons_True, IH.
Qed.

Lemma filter_none (C : A → Prop) `{!∀ x, Decision (C x)} (l : list A) :
  Forall (λ x, ¬ C x) l → filter C l = [].
Proof.
  induction 1 as [|x r Hx Hr IH]; [done|].
  by rewrite filter_cons_False.
Qed.
End SortedFacts.

Lemma get_None {A} (o : list (string * A)) (k : string) :
  k ∉ o.*1 → Js.get o k = None.
Proof.
  induction o as [|[k' v] r IH]; [done|].
  simpl. rewrite not_elem_of_cons. intros [Hk Hr].
  rewrite bool_decide_eq_false_2 by done. auto.
Qed.

Lemma inject_Z_nonpos (x y : Z) : (inject_Z (x - y) <= 0)%Q ↔ (x ≤ y)%Z.
Proof. change 0%Q with (inject_Z 0). rewrite <- Zle_Qle. lia. Qed.

Lemma roster_cmp_le a b : cmp_le roster_table_cmp a b ↔ roster_order a b.
Proof.
  unfold cmp_le, Js.before, roster_table_cmp, roster_order.
  rewrite Qle_bool_iff.
  destruct (RosterEntry.isStarter a), (RosterEntry.isStarter b); simpl;
    rewrite ?inject_Z_nonpos.
  - split; [by right|]. by intros [[_ ?]|[_ ?]].
  - split; [by left|]. intros _. lra.
  - split; [lra|]. by intros [[? _]|[? _]].
  - split; [by right|]. by intros [[? _]|[_ ?]].
Qed.

Lemma roster_cmp_total a b :
  Js.before roster_table_cmp a b = false → Js.before roster_table_cmp b a = true.
Proof.
  unfold Js.before, roster_table_cmp.
  rewrite <- not_true_iff_false, !Qle_bool_iff.
  destruct (RosterEntry.isStarter a), (RosterEntry.isStarter b); simpl;
    rewrite ?inject_Z_nonpos; first [lia | lra].
Qed.

#[global] Instance roster_order_trans : Transitive roster_order.
Proof.
  intros a b c. unfold roster_order.
  destruct (RosterEntry.isStarter a), (RosterEntry.isStarter b),
    (RosterEntry.isStarter c);
    intros [[? ?]|[? ?]] [[? ?]|[? ?]]; try done;
    first [by left | right; split; [done|lia]].
Qed.

(** On slot names that are no inherited property the code's lookup is the
    table, and the comparators are those of the table. *)
Lemma priority_plain (slot : string) :
  plain_slot slot → priority slot = Some (table_priority slot).
Proof.
  unfold plain_slot, priority, table_priority. intros Hslot.
  destruct (Js.get positionOrder slot); [done|].
  by rewrite bool_decide_eq_false_2.
Qed.

Lemma roster_cmp_plain (a b : RosterEntry.t) :
  plain_slot (RosterEntry.slotPosition a) →
  plain_slot (RosterEntry.slotPosition b) →
  roster_cmp a b = roster_table_cmp a b.
Proof.
  intros Ha Hb. unfold roster_cmp, roster_table_cmp.
  by rewrite !priority_plain.
Qed.

Lemma detail_cmp_plain (a b : DetailEntry.t) :
  plain_slot (DetailEntry.position a) →
  plain_slot (DetailEntry.position b) →
  detail_cmp a b = detail_table_cmp a b.
Proof.
  intros Ha Hb. unfold detail_cmp, detail_table_cmp.
  by rewrite !priority_plain.
Qed.

(** The sort looks at the comparator on the entries of the list only. *)
Lemma sort_ext_on {A} (cmp cmp' : A → A → Q) (l : list A) :
  (∀ x y, x ∈ l → y ∈ l → cmp x y = cmp' x y) →
  Js.sort cmp l = Js.sort cmp' l.
Proof.
  assert (∀ x k, (∀ y, y ∈ k → cmp x y = cmp' x y) →
                 Js.insert cmp x k = Js.insert cmp' x k) as Hins.
  { intros x k. induction k as [|y k IH]; intros Hk; [done|].
    simpl. unfold Js.before. rewrite (Hk y) by left.
    rewrite IH; [done|]. intros z Hz. apply Hk. by right. }
  induction l as [|x r IH]; intros Hl; [done|].
  change (Js.sort cmp (x :: r)) with (Js.insert cmp x (Js.sort cmp r)).
  change (Js.sort cmp' (x :: r)) with (Js.insert cmp' x (Js.sort cmp' r)).
  rewrite IH.
  - apply Hins. intros y Hy. rewrite sort_Permutation in Hy.
    apply Hl; [left|by right].
  - intros y z Hy Hz. apply Hl; by right.
Qed.

Lemma format_roster_table (roster : list Player.t) :
  plain_slots roster →
  format_roster roster = Js.sort roster_table_cmp (roster_entry <$> roster).
Proof.
  intros Hplain. unfold format_roster. apply sort_ext_on.
  unfold plain_slots in Hplain. rewrite Forall_forall in Hplain.
  intros a b (p & -> & Hp)%list_elem_of_fmap (q & -> & Hq)%list_elem_of_fmap.
  apply roster_cmp_plain; simpl; auto.
Qed.

Lemma formatRoster_table (roster : list Player.t) :
  plain_slots roster →
  formatRoster roster
  = Js.sort detail_table_cmp
      (detail_entry <$>
         filter (λ player, starter_slot (Player.rosteredPosition player)) roster).
Proof.
  intros Hplain. unfold formatRoster. apply sort_ext_on.
  unfold plain_slots in Hplain. rewrite Forall_forall in Hplain.
  intros a b (p & -> & [_ Hp]%list_elem_of_filter)%list_elem_of_fmap
         (q & -> & [_ Hq]%list_elem_of_filter)%list_elem_of_fmap.
  apply detail_cmp_plain; simpl; auto.
Qed.

Lemma format_roster_StronglySorted roster :
  plain_slots roster →
  StronglySorted roster_order (format_roster roster).
Proof.
  intros Hplain. rewrite format_roster_table by done.
  apply Sorted_StronglySorted; [apply roster_order_trans|].
  eapply Sorted_weaken; [|apply (sort_Sorted roster_table_cmp), roster_cmp_total].
  intros a b. apply roster_cmp_le.
Qed.

(** Any stable sort of the roster entries by this comparator yields the
    roster of [format_roster]. *)
Lemma format_roster_determined roster out :
  plain_slots roster →
  out ≡ₚ roster_entry <$> roster →
  Sorted (cmp_le roster_table_cmp) out →
  (∀ e, filter (tied roster_table_cmp e) out
        = filter (tied roster_table_cmp e) (roster_entry <$> roster)) →
  out = format_roster roster.
Proof.
  intros Hplain. rewrite format_roster_table by done.
  apply sort_unique; [apply roster_cmp_total|].
  intros x y z Hxy%roster_cmp_le Hyz%roster_cmp_le. apply roster_cmp_le.
  by etrans.
Qed.

Lemma starters_then_bench (l : list RosterEntry.t) :
  StronglySorted roster_order l →
  l = (filter (λ e, RosterEntry.isStarter e = true) l
       ++ filter (λ e, RosterEntry.isStarter e = false) l)%list.
Proof.
  induction 1 as [|x r Hr IH Hx]; [done|].
  rewrite !filter_cons. destruct (RosterEntry.isStarter x) eqn:Hsx.
  - rewrite decide_True, decide_False by done. simpl. by rewrite <- IH.
  - rewrite decide_False, decide_True by done.
    assert (Forall (λ e, RosterEntry.isStarter e = false) r) as Hb.
    { eapply Forall_impl; [exact Hx|]. intros y Hy.
      unfold roster_order in Hy. rewrite Hsx in Hy.
      by destruct Hy as [[? _]|[? _]]. }
    rewrite filter_none, filter_all; [done|done|].
    eapply Forall_impl; [exact Hb|]. intros y ->. done.
Qed.

Lemma priority_table_holds : priority_table.
Proof.
  repeat (split; [reflexivity|]).
  intros slot Hslot. unfold table_priority.
  by rewrite (get_None positionOrder slot Hslot).
Qed.

Example format_roster_example :
  let p slot name := Player.mk name "WR" "DAL" slot None None in
  RosterEntry.name <$>
    format_roster [p "Bench" "A"; p "K" "B"; p "QB" "C"; p "IR" "D"; p "OP" "E";
                   p "WR" "F"; p "Bench" "G"; p "FLEX" "H"; p "WR" "I"]
  = ["C"; "F"; "I"; "H"; "B"; "E"; "A"; "G"; "D"].
Proof. vm_compute. reflexivity. Qed.

(** C4 fails as it is stated: for a slot whose name is a property that the
    table object inherits, here [constructor], the lookup gives a function,
    the comparison is [NaN], and the entry stays where it was: in front of
    the quarterback, although the table gives it 99 and the quarterback 1. *)
Lemma inherited_slot_breaks_table_order :
  RosterEntry.name <$>
    format_roster [player_example "constructor" "A"; player_example "QB" "B"]
  = ["A"; "B"] ∧
  table_priority "constructor" = 99 ∧
  table_priority "QB" = 1 ∧
  ¬ roster_in_table_order
      [player_example "constructor" "A"; player_example "QB" "B"].
Proof.
  split_and!; try reflexivity.
  intros (_ & Hstarters & _).
  vm_compute in Hstarters.
  apply Sorted_inv in Hstarters as [_ Hhd].
  apply HdRel_inv in Hhd. by apply Hhd.
Qed.

(** C4, as the code has it.  For a roster none of whose slot names is a
    property the table object inherits from [Object.prototype], the
    formatted roster is its starters (rostered slot neither ["Bench"] nor
    ["IR"]) followed by its bench and IR players; within each of the two
    parts the slot priority is non-decreasing, under the table QB=1, RB=2,
    WR=3, TE=4, FLEX=RB/WR/TE=5, D/ST=6, K=7, Bench=99, IR=100 and 99 for
    any other slot, which is what the code's lookup gives for these names;
    and the sort is stable: the entries of one part with one priority
    appear in the provider's order. *)
Theorem roster_partitioned_sorted (roster : list Player.t) :
  plain_slots roster →
  let out := format_roster roster in
  let starters := filter (λ e, RosterEntry.isStarter e = true) out in
  let bench := filter (λ e, RosterEntry.isStarter e = false) out in
  out = (starters ++ bench)%list ∧
  (∀ e, e ∈ out →
     RosterEntry.isStarter e = true ↔
     RosterEntry.slotPosition e ≠ "Bench" ∧ RosterEntry.slotPosition e ≠ "IR") ∧
  Sorted by_priority starters ∧
  Sorted by_priority bench ∧
  priority_table ∧
  (∀ slot, plain_slot slot → priority slot = Some (table_priority slot)) ∧
  (∀ flag k,
     filter (λ e, RosterEntry.isStarter e = flag ∧
                  table_priority (RosterEntry.slotPosition e) = k) out
     = roster_entry <$>
         filter (λ player,
                   starter_slot (Player.rosteredPosition player) = flag ∧
                   table_priority (Player.rosteredPosition player) = k) roster) ∧
  out ≡ₚ roster_entry <$> roster.
Proof.
  intros Hplain out starters bench.
  pose proof (format_roster_StronglySorted roster Hplain) as Hss. fold out in Hss.
  assert (out ≡ₚ roster_entry <$> roster) as Hperm by apply sort_Permutation.
  assert (∀ flag, Sorted by_priority
                    (filter (λ e, RosterEntry.isStarter e = flag) out)) as Hpart.
  { intros flag. apply StronglySorted_Sorted.
    apply (StronglySorted_weaken roster_order by_priority
             (λ e, RosterEntry.isStarter e = flag)).
    - intros a b Ha Hb [[? ?]|[_ ?]]; [congruence|done].
    - apply Forall_forall. by intros e [? _]%list_elem_of_filter.
    - by apply StronglySorted_filter. }
  split_and!.
  - by apply starters_then_bench.
  - intros e He. rewrite Hperm in He.
    apply list_elem_of_fmap in He as (player & -> & _).
    simpl. unfold starter_slot.
    by rewrite andb_true_iff, !bool_decide_eq_true.
  - apply Hpart.
  - apply Hpart.
  - apply priority_table_holds.
  - apply priority_plain.
  - intros flag k. unfold out. rewrite format_roster_table by done.
    rewrite sort_stable.
    + by rewrite filter_fmap.
    + intros x y [Hx Hxk] [Hy Hyk]. apply roster_cmp_le.
      right. split; [congruence|lia].
  - done.
Qed.

Lemma roster_partitioned_sorted_witness :
  RosterEntry.name <$>
    filter (λ e, RosterEntry.isStarter e = true)
      (format_roster (Boxscore.homeRoster boxscore_example))
  = ["H3"; "H1"] ∧
  Sorted by_priority
    (filter (λ e, RosterEntry.isStarter e = true)
       (format_roster (Boxscore.homeRoster boxscore_example))).
Proof.
  split; [reflexivity|].
  apply (roster_partitioned_sorted (Boxscore.homeRoster boxscore_example)).
  unfold plain_slots.
  repeat (apply Forall_cons; split;
          [apply (bool_decide_unpack _); by vm_compute|]).
  constructor.
Defined.

(** ** Matchup Detail Formatter *)

Lemma foldl_plus_total (a : Q) (values : list Q) :
  (foldl (λ a b, a + b) a values == a + total values)%Q.
Proof.
  revert a. induction values as [|x r IH]; intros a; simpl.
  - ring.
  - rewrite IH. ring.
Qed.

Lemma sum_values_total (breakdown : list (string * Q)) :
  (Js.sum_values breakdown == total breakdown.*2)%Q.
Proof. unfold Js.sum_values. rewrite foldl_plus_total. ring. Qed.

Lemma or_number_Some (q : Q) : (Js.or_number (Some q) 0 == q)%Q.
Proof.
  simpl. destruct (Qeq_bool q 0) eqn:Hq; [|reflexivity].
  apply Qeq_bool_iff in Hq. by rewrite Hq.
Qed.

Example projected_example :
  let player := Player.mk "A" "WR" "DAL" "WR" (Some 12.5%Q)
                          (Some [("a", 1.5%Q); ("b", 2.5%Q)]) in
  Qred (DetailEntry.projected (detail_entry player)) = 4%Q.
Proof. reflexivity. Qed.

Lemma formatRoster_starters_only (roster : list Player.t) :
  starters_only roster (formatRoster roster).
Proof.
  assert (formatRoster roster ≡ₚ detail_entry <$>
            filter (λ player, Player.rosteredPosition player ≠ "Bench" ∧
                              Player.rosteredPosition player ≠ "IR") roster)
    as Hperm.
  { unfold formatRoster. rewrite sort_Permutation.
    erewrite list_filter_iff; [done|].
    intros player. unfold starter_slot.
    rewrite andb_True, !bool_decide_spec. done. }
  split; [|done].
  intros e He. rewrite Hperm in He.
  apply list_elem_of_fmap in He as (player & -> & Hp).
  by apply list_elem_of_filter in Hp as [Hp _].
Qed.

(** C5. For every located matchup, the two rosters of the detail hold no
    entry whose position is ["Bench"] or ["IR"]: they are the records of
    exactly the other players of the boxscore.  The projected value of a
    player is exactly 0 without a breakdown and the sum of the values of
    the breakdown otherwise (1.5 and 2.5 give 4), and the points default to
    0 when absent. *)
Theorem detail_roster_starters_projected
    (teamsData : gmap string (gmap string OwnerInfo.t))
    (division : string) (matchup : Boxscore.t) (teams : list Team.t) :
  let body := detail_body teamsData division matchup teams in
  starters_only (Boxscore.homeRoster matchup) (Detail.homeRoster body) ∧
  starters_only (Boxscore.awayRoster matchup) (Detail.awayRoster body) ∧
  (∀ player,
     DetailEntry.name (detail_entry player) = Player.fullName player ∧
     DetailEntry.position (detail_entry player) = Player.rosteredPosition player ∧
     match Player.projectedPointBreakdown player with
     | None => DetailEntry.projected (detail_entry player) = 0%Q
     | Some breakdown =>
         (DetailEntry.projected (detail_entry player) == total breakdown.*2)%Q
     end ∧
     match Player.totalPoints player with
     | None => DetailEntry.points (detail_entry player) = 0%Q
     | Some q => (DetailEntry.points (detail_entry player) == q)%Q
     end) ∧
  (∀ player,
     Player.projectedPointBreakdown player
     = Some [("a", 1.5%Q); ("b", 2.5%Q)] →
     (DetailEntry.projected (detail_entry player) == 4)%Q).
Proof.
  intros body. split_and!.
  - apply formatRoster_starters_only.
  - apply formatRoster_starters_only.
  - intros player. split_and!; try done; simpl.
    + destruct (Player.projectedPointBreakdown player); [|done].
      apply sum_values_total.
    + destruct (Player.totalPoints player) as [q|]; [|done].
      apply or_number_Some.
  - intros player Hb. simpl. rewrite Hb. reflexivity.
Qed.

(** ** Matchup Summarizer *)

(** [teamMap[id]] is the entry of the last team with that id, if any. *)
Lemma build_teamMap_lookup (teams : list Team.t) (id : Z) :
  build_teamMap teams !! id
  = teamRef_of <$> last (filter (λ team, Team.id team = id) teams).
Proof.
  unfold build_teamMap.
  induction teams as [|team teams IH] using rev_ind; [done|].
  rewrite foldl_snoc, filter_app, filter_cons, filter_nil.
  destruct (decide (Team.id team = id)) as [<-|Hne].
  - by rewrite lookup_insert_eq, last_snoc.
  - by rewrite lookup_insert_ne, app_nil_r.
Qed.

Lemma build_teamMap_absent (teams : list Team.t) (id : Z) :
  id ∉ Team.id <$> teams → build_teamMap teams !! id = None.
Proof.
  intros Hid. rewrite build_teamMap_lookup.
  replace (filter (λ team, Team.id team = id) teams) with (@nil Team.t); [done|].
  symmetry. apply filter_none, Forall_forall.
  intros team Hteam Heq. apply Hid. rewrite <- Heq.
  by apply list_elem_of_fmap_2.
Qed.

Example summarize_example :
  summarize [Boxscore.mk 1 9 (101 # 1) (88 # 1) [] []]
            [Team.mk 1 "One" 8 0 0 1200 900; Team.mk 2 "Two" 8 0 0 1150 900]
  = [Matchup.mk "One" 1 (101 # 1) "Unknown" 9 (88 # 1)].
Proof. vm_compute. reflexivity. Qed.

(** C7. The Matchup Summarizer is total: it emits one entry per boxscore,
    in the provider's order, carrying the ids and scores of the boxscore; a
    home or away id that no team of the team sequence has yields the name
    ["Unknown"], and an id that some team has yields the name in
    [teamMap] (with the same fallback when that name is empty). *)
Theorem summarize_total (scoreboard : list Boxscore.t) (teams : list Team.t) :
  let out := summarize scoreboard teams in
  length out = length scoreboard ∧
  ∀ i matchup, scoreboard !! i = Some matchup →
    ∃ m, out !! i = Some m ∧
      Matchup.homeTeamId m = Boxscore.homeTeamId matchup ∧
      Matchup.homeScore m = Boxscore.homeScore matchup ∧
      Matchup.awayTeamId m = Boxscore.awayTeamId matchup ∧
      Matchup.awayScore m = Boxscore.awayScore matchup ∧
      (Boxscore.homeTeamId matchup ∉ Team.id <$> teams →
       Matchup.homeTeam m = "Unknown") ∧
      (Boxscore.awayTeamId matchup ∉ Team.id <$> teams →
       Matchup.awayTeam m = "Unknown") ∧
      (∀ team,
         last (filter (λ t, Team.id t = Boxscore.homeTeamId matchup) teams)
         = Some team →
         Matchup.homeTeam m = Js.or_string (Some (Team.name team)) "Unknown") ∧
      (∀ team,
         last (filter (λ t, Team.id t = Boxscore.awayTeamId matchup) teams)
         = Some team →
         Matchup.awayTeam m = Js.or_string (Some (Team.name team)) "Unknown").
Proof.
  intros out. split; [apply length_fmap|].
  intros i matchup Hi. unfold out, summarize.
  rewrite list_lookup_fmap, Hi. simpl. eexists. split; [done|]. simpl.
  split_and!; try done.
  - intros Hid. by rewrite build_teamMap_absent.
  - intros Hid. by rewrite build_teamMap_absent.
  - intros team Hteam. by rewrite build_teamMap_lookup, Hteam.
  - intros team Hteam. by rewrite build_teamMap_lookup, Hteam.
Qed.

(** When both fetches succeed, [getMatchups] returns the summary and has
    issued the boxscore call and then the team call. *)
Lemma getMatchups_ok P c seasonId week h scoreboard teams :
  getBoxscoreForWeek P h c seasonId week week = inr scoreboard →
  getTeamsAtWeek P (h ++ [GetBoxscoreForWeek c seasonId week week])%list
                 c seasonId week = inr teams →
  getMatchups P c seasonId week h
  = (inr (summarize scoreboard teams),
     (h ++ [GetBoxscoreForWeek c seasonId week week;
            GetTeamsAtWeek c seasonId week])%list).
Proof.
  intros Hb Ht.
  unfold getMatchups, mbind, io_bind, all, fetchBoxscores, fetchTeams, await.
  rewrite Hb, Ht. simpl. by rewrite <- app_assoc.
Qed.

(** ** The handlers: validation, fetch, lookup *)

Section Handlers.
Variable teamsData : gmap string (gmap string OwnerInfo.t).
Variable LEAGUES : client → Config.t.
Variable P : provider.

Lemma valid_division_spec division :
  valid_division division = true ↔ division = "green" ∨ division = "white".
Proof.
  unfold valid_division. rewrite bool_decide_eq_true.
  rewrite !elem_of_cons, elem_of_nil. tauto.
Qed.

(** The first provider call of [fetchWeek] is the league-info call, and
    it is always issued. *)
Lemma fetchWeek_calls c config h :
  ∃ rest, (fetchWeek P c config h).2
          = (h ++ GetLeagueInfo c (Config.seasonId config) :: rest)%list.
Proof.
  unfold fetchWeek, mbind, io_bind, fetchLeagueInfo, await.
  destruct (getLeagueInfo P h c (Config.seasonId config)) as [e|info]; simpl.
  - by exists [].
  - unfold all, fetchBoxscores, fetchTeams, await. simpl.
    eexists. by rewrite <- !app_assoc.
Qed.

Lemma league_handler_invalid division h :
  valid_division division = false →
  league_handler teamsData LEAGUES P division h
  = (Error 400 "Invalid division", h).
Proof. intros Hd. unfold league_handler, try_catch. by rewrite Hd. Qed.

Lemma roster_handler_invalid division teamId h :
  valid_division division = false →
  roster_handler teamsData LEAGUES P division teamId h
  = (Error 400 "Invalid division", h).
Proof. intros Hd. unfold roster_handler, try_catch. by rewrite Hd. Qed.

Lemma matchup_handler_invalid division homeTeamId awayTeamId h :
  valid_division division = false →
  matchup_handler teamsData LEAGUES P division homeTeamId awayTeamId h
  = (Error 400 "Invalid division", h).
Proof. intros Hd. unfold matchup_handler, try_catch. by rewrite Hd. Qed.

(** A valid division: the handler fetches the week, then looks up. *)
Lemma roster_handler_valid division teamId h :
  valid_division division = true →
  roster_handler teamsData LEAGUES P division teamId h
  = match fetchWeek P (client_of division) (LEAGUES (client_of division)) h with
    | (inl e, h') => (Error 500 e, h')
    | (inr (boxscores, teams), h') =>
        (match find_team_boxscore boxscores teamId with
         | None => Error 404 "Team not found"
         | Some teamBoxscore =>
             Ok (roster_body teamsData division teamId teamBoxscore teams)
         end, h')
    end.
Proof.
  intros Hd. unfold roster_handler, try_catch. rewrite Hd. simpl.
  unfold mbind at 1, io_bind at 1.
  destruct (fetchWeek _ _ _ h) as [[e|[boxscores teams]] h']; [done|].
  by destruct (find_team_boxscore boxscores teamId).
Qed.

Lemma matchup_handler_valid division homeTeamId awayTeamId h :
  valid_division division = true →
  matchup_handler teamsData LEAGUES P division homeTeamId awayTeamId h
  = match fetchWeek P (client_of division) (LEAGUES (client_of division)) h with
    | (inl e, h') => (Error 500 e, h')
    | (inr (boxscores, teams), h') =>
        (match find_matchup boxscores homeTeamId awayTeamId with
         | None => Error 404 "Matchup not found"
         | Some matchup => Ok (detail_body teamsData division matchup teams)
         end, h')
    end.
Proof.
  intros Hd. unfold matchup_handler, try_catch. rewrite Hd. simpl.
  unfold mbind at 1, io_bind at 1.
  destruct (fetchWeek _ _ _ h) as [[e|[boxscores teams]] h']; [done|].
  by destruct (find_matchup boxscores homeTeamId awayTeamId).
Qed.
End Handlers.

Lemma find_ext {A} (p q : A → bool) (l : list A) :
  (∀ x, p x = q x) → Js.find p l = Js.find q l.
Proof.
  intros Hpq. induction l as [|x r IH]; [done|].
  simpl. by rewrite Hpq, IH.
Qed.

Lemma find_None {A} (p : A → bool) (l : list A) :
  Forall (λ x, p x = false) l → Js.find p l = None.
Proof. induction 1 as [|x r Hx Hr IH]; [done|]. simpl. by rewrite Hx. Qed.

Lemma eq_parsed_true (n : Z) (s : string) :
  Js.eq_parsed n (Js.parseInt s) = true ↔ Js.parseInt s = Some n.
Proof.
  unfold Js.eq_parsed. destruct (Js.parseInt s) as [m|]; [|done].
  rewrite Z.eqb_eq. split; [by intros ->|by intros [= ->]].
Qed.

Lemma eq_parsed_false (n : Z) (s : string) :
  Js.parseInt s ≠ Some n → Js.eq_parsed n (Js.parseInt s) = false.
Proof. rewrite <- eq_parsed_true. by destruct (Js.eq_parsed _ _). Qed.

Lemma matchup_lookup_symmetry_aux boxscores X Y :
  find_matchup boxscores X Y = find_matchup boxscores Y X.
Proof. apply find_ext. intros box. apply orb_comm. Qed.

(** C6. The matchup lookup is symmetric in the two requested ids: both
    orders locate the same boxscore or both locate none, and the handler
    gives the same answer for both. *)
Theorem matchup_lookup_symmetric
    (teamsData : gmap string (gmap string OwnerInfo.t))
    (LEAGUES : client → Config.t) (P : provider)
    (division X Y : string) (boxscores : list Boxscore.t) (h : list call) :
  find_matchup boxscores X Y = find_matchup boxscores Y X ∧
  matchup_handler teamsData LEAGUES P division X Y h
  = matchup_handler teamsData LEAGUES P division Y X h.
Proof.
  pose proof matchup_lookup_symmetry_aux as Hsym.
  split; [apply Hsym|].
  destruct (valid_division division) eqn:Hd.
  - rewrite !matchup_handler_valid by done.
    destruct (fetchWeek _ _ _ h) as [[e|[bs teams]] h']; [done|].
    by rewrite (Hsym bs X Y).
  - by rewrite !matchup_handler_invalid.
Qed.

Example fetchWeek_example :
  fetchWeek provider_example greenClient (leagues_example greenClient) []
  = (inr ([boxscore_example], teams_example), calls_example).
Proof. reflexivity. Qed.

(** ** Not-found results *)

(** C8. When the fetches succeed, a roster query whose team id is the home
    or away id of no fetched boxscore, and a matchup query whose pair of ids
    matches no fetched boxscore in either orientation, end in a 404 answer;
    a rejected fetch ends in 500, so that the two are never confused. *)
Theorem not_found_is_distinct
    (teamsData : gmap string (gmap string OwnerInfo.t))
    (LEAGUES : client → Config.t) (P : provider)
    (division : string) (h h' : list call)
    (boxscores : list Boxscore.t) (teams : list Team.t) :
  division = "green" ∨ division = "white" →
  fetchWeek P (client_of division) (LEAGUES (client_of division)) h
  = (inr (boxscores, teams), h') →
  (∀ teamId,
     Forall (λ box, Js.parseInt teamId ≠ Some (Boxscore.homeTeamId box) ∧
                    Js.parseInt teamId ≠ Some (Boxscore.awayTeamId box))
            boxscores →
     roster_handler teamsData LEAGUES P division teamId h
     = (Error 404 "Team not found", h')) ∧
  (∀ homeTeamId awayTeamId,
     Forall (λ box,
               ¬ (Js.parseInt homeTeamId = Some (Boxscore.homeTeamId box) ∧
                  Js.parseInt awayTeamId = Some (Boxscore.awayTeamId box)) ∧
               ¬ (Js.parseInt awayTeamId = Some (Boxscore.homeTeamId box) ∧
                  Js.parseInt homeTeamId = Some (Boxscore.awayTeamId box)))
            boxscores →
     matchup_handler teamsData LEAGUES P division homeTeamId awayTeamId h
     = (Error 404 "Matchup not found", h')) ∧
  (∀ P' e h1,
     fetchWeek P' (client_of division) (LEAGUES (client_of division)) h
     = (inl e, h1) →
     (∀ teamId,
        roster_handler teamsData LEAGUES P' division teamId h
        = (Error 500 e, h1)) ∧
     (∀ homeTeamId awayTeamId,
        matchup_handler teamsData LEAGUES P' division homeTeamId awayTeamId h
        = (Error 500 e, h1))).
Proof.
  intros Hd%valid_division_spec Hfetch. split_and!.
  - intros teamId Hno. rewrite roster_handler_valid, Hfetch by done.
    unfold find_team_boxscore. rewrite find_None; [done|].
    eapply Forall_impl; [exact Hno|]. intros box [Hh Ha]. simpl.
    by rewrite !eq_parsed_false.
  - intros homeTeamId awayTeamId Hno.
    rewrite matchup_handler_valid, Hfetch by done.
    unfold find_matchup. rewrite find_None; [done|].
    eapply Forall_impl; [exact Hno|]. intros box [H1 H2]. simpl.
    apply orb_false_iff. split; apply andb_false_iff.
    + destruct (Js.eq_parsed (Boxscore.homeTeamId box) (Js.parseInt homeTeamId)) eqn:E1;
        [|by left].
      right. apply eq_parsed_false. intros E2. apply H1.
      by apply eq_parsed_true in E1.
    + destruct (Js.eq_parsed (Boxscore.homeTeamId box) (Js.parseInt awayTeamId)) eqn:E1;
        [|by left].
      right. apply eq_parsed_false. intros E2. apply H2.
      by apply eq_parsed_true in E1.
  - intros P' e h1 Hfail. split.
    + intros teamId. by rewrite roster_handler_valid, Hfail.
    + intros homeTeamId awayTeamId. by rewrite matchup_handler_valid, Hfail.
Qed.

Lemma not_found_is_distinct_witness :
  roster_handler registry_example leagues_example provider_example "green" "9" []
  = (Error 404 "Team not found", calls_example).
Proof.
  destruct (not_found_is_distinct registry_example leagues_example
              provider_example "green" [] calls_example
              [boxscore_example] teams_example) as (Hroster & _ & _).
  - left. reflexivity.
  - reflexivity.
  - apply Hroster. repeat constructor; vm_compute; discriminate.
Defined.

(** ** Validation *)

(** The team id is not validated: [abc] parses to [NaN], the three provider
    calls are issued all the same, and the query ends as not-found, or as an
    upstream error when the provider rejects. *)
Lemma malformed_team_id_reaches_provider :
  Js.parseInt "abc" = None ∧
  roster_handler registry_example leagues_example provider_example
                 "green" "abc" []
  = (Error 404 "Team not found", calls_example) ∧
  roster_handler registry_example leagues_example provider_down
                 "green" "abc" []
  = (Error 500 "ECONNRESET", [GetLeagueInfo greenClient 2025]) ∧
  matchup_handler registry_example leagues_example provider_example
                  "green" "abc" "2" []
  = (Error 404 "Matchup not found", calls_example) ∧
  ¬ validated_before_upstream registry_example leagues_example provider_example
      "green" "abc" [] ∧
  ¬ validated_before_upstream registry_example leagues_example provider_down
      "green" "abc" [].
Proof.
  split_and!; try reflexivity.
  - intros Hclaim. destruct Hclaim as [Hlog _]; [by right|].
    vm_compute in Hlog. discriminate.
  - intros Hclaim. destruct Hclaim as [_ Hstatus]; [by right|].
    by apply Hstatus.
Qed.

Lemma find_matchup_NaN_l boxscores homeTeamId awayTeamId :
  Js.parseInt homeTeamId = None →
  find_matchup boxscores homeTeamId awayTeamId = None.
Proof.
  intros Hnan. unfold find_matchup. apply find_None, Forall_forall.
  intros box _. rewrite Hnan. simpl. by rewrite andb_false_r.
Qed.

Lemma find_matchup_NaN_r boxscores homeTeamId awayTeamId :
  Js.parseInt awayTeamId = None →
  find_matchup boxscores homeTeamId awayTeamId = None.
Proof.
  intros Hnan. unfold find_matchup. apply find_None, Forall_forall.
  intros box _. rewrite Hnan. simpl. by rewrite andb_false_r.
Qed.

Lemma find_team_boxscore_NaN boxscores teamId :
  Js.parseInt teamId = None → find_team_boxscore boxscores teamId = None.
Proof.
  intros Hnan. unfold find_team_boxscore. apply find_None, Forall_forall.
  intros box _. by rewrite Hnan.
Qed.

(** C9, as the code has it.  A division token other than exactly [green] or
    [white] is answered with status 400 and no provider call at all, in the
    league, roster and matchup handlers (upstream-fetch errors have status
    500).  A team id is not validated: for a valid division the league-info
    call is issued whatever the team id is, and when the fetches succeed a
    team id in which [parseInt] reads no number (such as [abc]) is answered
    as not-found (404), in the roster handler and on either side of the
    matchup handler. *)
Theorem division_validated_before_upstream
    (teamsData : gmap string (gmap string OwnerInfo.t))
    (LEAGUES : client → Config.t) (P : provider)
    (division : string) (h : list call) :
  (division ≠ "green" → division ≠ "white" →
     league_handler teamsData LEAGUES P division h
     = (Error 400 "Invalid division", h) ∧
     (∀ teamId,
        roster_handler teamsData LEAGUES P division teamId h
        = (Error 400 "Invalid division", h)) ∧
     (∀ homeTeamId awayTeamId,
        matchup_handler teamsData LEAGUES P division homeTeamId awayTeamId h
        = (Error 400 "Invalid division", h))) ∧
  (division = "green" ∨ division = "white" →
     let client := client_of division in
     let first := GetLeagueInfo client (Config.seasonId (LEAGUES client)) in
     (∀ teamId, ∃ rest,
        (roster_handler teamsData LEAGUES P division teamId h).2
        = (h ++ first :: rest)%list) ∧
     (∀ homeTeamId awayTeamId, ∃ rest,
        (matchup_handler teamsData LEAGUES P division homeTeamId awayTeamId h).2
        = (h ++ first :: rest)%list) ∧
     (∀ boxscores teams h' teamId,
        fetchWeek P client (LEAGUES client) h = (inr (boxscores, teams), h') →
        Js.parseInt teamId = None →
        roster_handler teamsData LEAGUES P division teamId h
        = (Error 404 "Team not found", h') ∧
        (∀ other,
           matchup_handler teamsData LEAGUES P division teamId other h
           = (Error 404 "Matchup not found", h') ∧
           matchup_handler teamsData LEAGUES P division other teamId h
           = (Error 404 "Matchup not found", h')))).
Proof.
  split.
  - intros Hg Hw.
    assert (valid_division division = false) as Hd.
    { apply not_true_iff_false. rewrite valid_division_spec. tauto. }
    split_and!; intros.
    + by apply league_handler_invalid.
    + by apply roster_handler_invalid.
    + by apply matchup_handler_invalid.
  - intros Hd%valid_division_spec client first. split_and!.
    + intros teamId. rewrite roster_handler_valid by done.
      destruct (fetchWeek_calls P client (LEAGUES client) h) as [rest Hrest].
      exists rest. fold client.
      by destruct (fetchWeek _ _ _ h) as [[e|[bs ts]] h1].
    + intros homeTeamId awayTeamId. rewrite matchup_handler_valid by done.
      destruct (fetchWeek_calls P client (LEAGUES client) h) as [rest Hrest].
      exists rest. fold client.
      by destruct (fetchWeek _ _ _ h) as [[e|[bs ts]] h1].
    + intros boxscores teams h' teamId Hfetch Hnan. split; [|intros other; split].
      * rewrite roster_handler_valid by done. fold client. rewrite Hfetch.
        by rewrite find_team_boxscore_NaN.
      * rewrite matchup_handler_valid by done. fold client. rewrite Hfetch.
        by rewrite find_matchup_NaN_l.
      * rewrite matchup_handler_valid by done. fold client. rewrite Hfetch.
        by rewrite find_matchup_NaN_r.
Qed.

Example invalid_division_example :
  roster_handler registry_example leagues_example provider_example
                 "Green" "1" []
  = (Error 400 "Invalid division", []).
Proof. reflexivity. Qed.

(** ** Orientation of the matchup detail *)

Example matchup_reversed_example :
  let answer := matchup_handler registry_example leagues_example
                  provider_example "green" "2" "1" [] in
  (λ body, (Detail.homeTeam body, Detail.homeScore body,
            DetailEntry.name <$> Detail.homeRoster body,
            Detail.awayTeam body)) <$>
    match answer.1 with Ok body => Some body | Error _ _ => None end
  = Some ("One", 101 # 1, ["H3"; "H1"], "Two").
Proof. vm_compute. reflexivity. Qed.

(** C10. When the located boxscore stores the two teams in the reverse of
    the requested order (the requested home id is its away id and the
    requested away id is its home id), the home-side fields of the answer
    still describe the home team of the boxscore: its score, its roster,
    its name among the fetched teams and its registry entry.  The answer is
    the one the other order of the ids gives. *)
Theorem detail_sides_follow_boxscore
    (teamsData : gmap string (gmap string OwnerInfo.t))
    (LEAGUES : client → Config.t) (P : provider)
    (division homeTeamId awayTeamId : string) (h h' : list call)
    (boxscores : list Boxscore.t) (teams : list Team.t) (matchup : Boxscore.t) :
  division = "green" ∨ division = "white" →
  fetchWeek P (client_of division) (LEAGUES (client_of division)) h
  = (inr (boxscores, teams), h') →
  find_matchup boxscores homeTeamId awayTeamId = Some matchup →
  Js.parseInt homeTeamId = Some (Boxscore.awayTeamId matchup) →
  Js.parseInt awayTeamId = Some (Boxscore.homeTeamId matchup) →
  ∃ body,
    matchup_handler teamsData LEAGUES P division homeTeamId awayTeamId h
    = (Ok body, h') ∧
    matchup_handler teamsData LEAGUES P division awayTeamId homeTeamId h
    = (Ok body, h') ∧
    let storedHome := Js.toString (Boxscore.homeTeamId matchup) in
    Detail.homeScore body = Boxscore.homeScore matchup ∧
    Detail.homeRoster body = formatRoster (Boxscore.homeRoster matchup) ∧
    Detail.homeTeam body
    = Js.or_string
        (Team.name <$>
           Js.find (λ t, Js.eq_parsed (Team.id t) (Js.parseInt awayTeamId)) teams)
        "Unknown" ∧
    Detail.homeOwner body = owner_of (ownerInfo_of teamsData division storedHome) ∧
    Detail.homeChampionships body
    = championships_of (ownerInfo_of teamsData division storedHome) ∧
    Detail.awayScore body = Boxscore.awayScore matchup ∧
    Detail.awayRoster body = formatRoster (Boxscore.awayRoster matchup).
Proof.
  intros Hd%valid_division_spec Hfetch Hfind Hhome Haway.
  exists (detail_body teamsData division matchup teams). split_and!; try done.
  - by rewrite matchup_handler_valid, Hfetch, Hfind.
  - rewrite matchup_handler_valid, Hfetch by done.
    by rewrite (matchup_lookup_symmetry_aux boxscores awayTeamId homeTeamId), Hfind.
  - intros storedHome. split_and!; try done.
    simpl. do 2 f_equal. apply find_ext. intros t. rewrite Haway. simpl.
    destruct (Z.eqb_spec (Team.id t) (Boxscore.homeTeamId matchup)).
    + by apply bool_decide_eq_true_2.
    + by apply bool_decide_eq_false_2.
Qed.

Lemma detail_sides_follow_boxscore_witness :
  ∃ body,
    matchup_handler registry_example leagues_example provider_example
                    "green" "2" "1" []
    = (Ok body, calls_example) ∧
    Detail.homeScore body = Boxscore.homeScore boxscore_example ∧
    Detail.homeTeam body = "One".
Proof.
  destruct (detail_sides_follow_boxscore registry_example leagues_example
              provider_example "green" "2" "1" [] calls_example
              [boxscore_example] teams_example boxscore_example)
    as (body & Hrun & _ & Hscore & _ & Hname & _).
  - left. reflexivity.
  - reflexivity.
  - reflexivity.
  - reflexivity.
  - reflexivity.
  - exists body. split; [exact Hrun|]. split; [exact Hscore|].
    rewrite Hname. reflexivity.
Defined.


(** * Further properties of the handlers *)

(** ** Team ids as strings: [toString] and [parseInt] *)

Lemma small_N_cases (k : N) :
  (k < 10)%N →
  k ∈ [0; 1; 2; 3; 4; 5; 6; 7; 8; 9]%N.
Proof.
  intros Hk. rewrite !elem_of_cons, elem_of_nil. lia.
Qed.

Lemma digit_val_char (k : N) :
  (k < 10)%N → Js.digit_val 10 (pretty_N_char k) = Some (Z.of_N k).
Proof.
  intros Hk%small_N_cases. rewrite !elem_of_cons, elem_of_nil in Hk.
  destruct Hk as [->|[->|[->|[->|[->|[->|[->|[->|[->|[->|[]]]]]]]]]]];
    reflexivity.
Qed.

Lemma digits_pretty_go (x : N) (s : string) :
  (0 < x)%N →
  Js.digits 10 (pretty_N_go x s) None = Js.digits 10 s (Some (Z.of_N x)).
Proof.
  revert s. induction (N.lt_wf_0 x) as [x _ IH]. intros s Hx.
  rewrite pretty_N_go_step by done.
  assert (x `mod` 10 < 10)%N as Hmod by (apply N.mod_lt; lia).
  destruct (decide (x `div` 10 = 0)%N) as [Hz|Hnz].
  - rewrite Hz, pretty_N_go_0. simpl. rewrite digit_val_char by done.
    do 2 f_equal. simpl.
    rewrite (N.div_mod x 10) at 2 by done. rewrite Hz. lia.
  - rewrite IH; [|apply N.div_lt; lia|by apply N.neq_0_lt_0].
    simpl. rewrite digit_val_char by done.
    do 2 f_equal. simpl.
    rewrite (N.div_mod x 10) at 3 by done. lia.
Qed.

Lemma pretty_go_plain (x : N) (s : string) :
  (0 < x)%N → digit_or_end s → plain_decimal (pretty_N_go x s).
Proof.
  revert s. induction (N.lt_wf_0 x) as [x _ IH]. intros s Hx Hs.
  rewrite pretty_N_go_step by done.
  assert (x `mod` 10 < 10)%N as Hmod by (apply N.mod_lt; lia).
  destruct (decide (x `div` 10 = 0)%N) as [Hz|Hnz].
  - rewrite Hz, pretty_N_go_0. simpl. eauto.
  - apply IH; [apply N.div_lt; lia|by apply N.neq_0_lt_0|]. simpl. eauto.
Qed.

Ltac each_digit H :=
  let k := fresh "k" in
  let Hk := fresh "Hk" in
  destruct H as (k & Hk%small_N_cases & ->);
  rewrite !elem_of_cons, elem_of_nil in Hk;
  destruct Hk as [->|[->|[->|[->|[->|[->|[->|[->|[->|[->|[]]]]]]]]]]].

Lemma to_double_safe (n : Z) : Js.safe n → Js.to_double n = Some n.
Proof.
  unfold Js.safe, Js.to_double. intros Hn.
  by rewrite (proj2 (Z.ltb_lt _ _) Hn).
Qed.

(** On a string of decimal digits [parseInt] skips nothing and reads in
    base ten, with or without a minus sign in front. *)
Lemma parseInt_plain (s : string) :
  plain_decimal s →
  Js.parseInt s = Js.digits 10 s None ≫= (λ v, Js.to_double (1 * v)) ∧
  Js.parseInt (String "-"%char s)
  = Js.digits 10 s None ≫= (λ v, Js.to_double (-1 * v)).
Proof.
  destruct s as [|c r]; [done|]. intros [Hc Hr].
  destruct r as [|c' r'].
  - each_digit Hc; split; reflexivity.
  - simpl in Hr. each_digit Hc; each_digit Hr; split; reflexivity.
Qed.

Lemma parseInt_pretty_go (x : N) :
  (0 < x)%N → Js.safe (Z.of_N x) →
  Js.parseInt (pretty_N_go x EmptyString) = Some (Z.of_N x) ∧
  Js.parseInt (String "-"%char (pretty_N_go x EmptyString)) = Some (- Z.of_N x).
Proof.
  intros Hx Hsafe.
  destruct (parseInt_plain (pretty_N_go x EmptyString)) as [-> ->].
  { by apply pretty_go_plain. }
  rewrite digits_pretty_go by done. simpl Js.digits. split.
  - change (Some (Z.of_N x) ≫= λ v, Js.to_double (1 * v))
      with (Js.to_double (1 * Z.of_N x)).
    rewrite Z.mul_1_l. by apply to_double_safe.
  - change (Some (Z.of_N x) ≫= λ v, Js.to_double (-1 * v))
      with (Js.to_double (-1 * Z.of_N x)).
    replace (-1 * Z.of_N x) with (- Z.of_N x) by lia.
    apply to_double_safe. unfold Js.safe in *. lia.
Qed.

(** Reading back the decimal string of a safe integer id gives the id. *)
Lemma parseInt_toString (n : Z) :
  Js.safe n → Js.parseInt (Js.toString n) = Some n.
Proof.
  intros Hsafe. destruct n as [|p|p].
  - reflexivity.
  - unfold Js.toString, pretty, pretty_Z, pretty, pretty_positive, pretty,
      pretty_N.
    rewrite decide_False by done.
    by apply (parseInt_pretty_go (N.pos p)).
  - unfold Js.toString, pretty, pretty_Z, pretty, pretty_positive, pretty,
      pretty_N.
    rewrite decide_False by done.
    change ("-" +:+ pretty_N_go (N.pos p) EmptyString)
      with (String "-"%char (pretty_N_go (N.pos p) EmptyString)).
    by apply (parseInt_pretty_go (N.pos p)).
Qed.

(** Beyond the safe integers the digits are rounded to a double, and white
    space of more than one byte is skipped as well. *)
Example parseInt_edges :
  Js.parseInt "9007199254740993" = Some 9007199254740992 ∧
  Js.parseInt "9007199254740995" = Some 9007199254740996 ∧
  Js.parseInt (String (ascii_of_N 194) (String (ascii_of_N 160) "7")) = Some 7 ∧
  Js.parseInt (String (ascii_of_N 239) (String (ascii_of_N 187)
                 (String (ascii_of_N 191) " -12px"))) = Some (-12).
Proof. repeat split; vm_compute; reflexivity. Qed.

(** ** Locating the boxscore of a request *)

Lemma find_first {A} (p : A → bool) (pre post : list A) (x : A) :
  Forall (λ y, p y = false) pre → p x = true →
  Js.find p (pre ++ x :: post) = Some x.
Proof.
  intros Hpre Hx. induction Hpre as [|y r Hy Hr IH]; simpl.
  - by rewrite Hx.
  - by rewrite Hy.
Qed.

Lemma find_Some_iff {A} (p : A → bool) (l : list A) :
  is_Some (Js.find p l) ↔ Exists (λ x, p x = true) l.
Proof.
  induction l as [|x r IH]; simpl.
  - rewrite Exists_nil. split; [by intros [? ?]|done].
  - rewrite Exists_cons. destruct (p x) eqn:Hx.
    + split; [by left|by eexists].
    + rewrite IH. split; [by right|]. by intros [?|?]; [congruence|].
Qed.

Lemma find_Some_holds {A} (p : A → bool) (l : list A) (x : A) :
  Js.find p l = Some x → p x = true ∧ x ∈ l.
Proof.
  induction l as [|y r IH]; simpl; [done|].
  destruct (p y) eqn:Hy.
  - intros [= ->]. split; [done|left].
  - intros [? ?]%IH. split; [done|by right].
Qed.

Lemma team_boxscore_test (teamId : string) (id : Z) (box : Boxscore.t) :
  Js.parseInt teamId = Some id →
  Js.eq_parsed (Boxscore.homeTeamId box) (Js.parseInt teamId)
  || Js.eq_parsed (Boxscore.awayTeamId box) (Js.parseInt teamId) = true
  ↔ plays id box.
Proof.
  intros ->. unfold plays. simpl. rewrite orb_true_iff, !Z.eqb_eq. done.
Qed.

Lemma matchup_test (X Y : string) (x y : Z) (box : Boxscore.t) :
  Js.parseInt X = Some x → Js.parseInt Y = Some y →
  (Js.eq_parsed (Boxscore.homeTeamId box) (Js.parseInt X)
   && Js.eq_parsed (Boxscore.awayTeamId box) (Js.parseInt Y))
  || (Js.eq_parsed (Boxscore.homeTeamId box) (Js.parseInt Y)
      && Js.eq_parsed (Boxscore.awayTeamId box) (Js.parseInt X)) = true
  ↔ opposes x y box.
Proof.
  intros -> ->. unfold opposes. simpl.
  rewrite orb_true_iff, !andb_true_iff, !Z.eqb_eq. done.
Qed.

(** The roster handler answers with the first boxscore, in the provider's
    order, in which the requested team plays: with the home roster when the
    team is its home team and with the away roster otherwise.  The team
    name is that of the first fetched team with the id, [Unknown] when no
    fetched team has it. *)
Theorem roster_of_first_boxscore
    (teamsData : gmap string (gmap string OwnerInfo.t))
    (LEAGUES : client → Config.t) (P : provider)
    (division teamId : string) (id : Z) (h h' : list call)
    (pre post : list Boxscore.t) (box : Boxscore.t) (teams : list Team.t) :
  division = "green" ∨ division = "white" →
  fetchWeek P (client_of division) (LEAGUES (client_of division)) h
  = (inr ((pre ++ box :: post)%list, teams), h') →
  Js.parseInt teamId = Some id →
  Forall (λ b, ¬ plays id b) pre →
  plays id box →
  ∃ body,
    roster_handler teamsData LEAGUES P division teamId h = (Ok body, h') ∧
    Roster.teamId body = Some id ∧
    Roster.roster body
    = format_roster (if decide (Boxscore.homeTeamId box = id)
                     then Boxscore.homeRoster box
                     else Boxscore.awayRoster box) ∧
    (Forall (λ t, Team.id t ≠ id) teams → Roster.teamName body = "Unknown") ∧
    (∀ tpre t tpost,
       teams = (tpre ++ t :: tpost)%list →
       Forall (λ t', Team.id t' ≠ id) tpre → Team.id t = id →
       Roster.teamName body = Js.or_string (Some (Team.name t)) "Unknown").
Proof.
  intros Hd%valid_division_spec Hfetch Hid Hpre Hbox.
  assert (find_team_boxscore (pre ++ box :: post) teamId = Some box) as Hfind.
  { apply find_first.
    - eapply Forall_impl; [exact Hpre|]. intros b Hb. simpl in Hb.
      apply not_true_iff_false. by rewrite (team_boxscore_test teamId id).
    - by apply (team_boxscore_test teamId id). }
  eexists. split; [|split_and!].
  - by rewrite roster_handler_valid, Hfetch, Hfind.
  - done.
  - simpl. rewrite Hid. simpl. f_equal.
    destruct (Z.eqb_spec (Boxscore.homeTeamId box) id);
      [by rewrite decide_True|by rewrite decide_False].
  - intros Hnone. simpl. rewrite find_None; [done|].
    eapply Forall_impl; [exact Hnone|]. intros t Ht. simpl in *.
    rewrite Hid. simpl. by apply Z.eqb_neq.
  - intros tpre t tpost -> Htpre Ht. simpl.
    rewrite (find_first _ tpre tpost t); [done| |].
    + eapply Forall_impl; [exact Htpre|]. intros t' Ht'. simpl in *.
      rewrite Hid. simpl. by apply Z.eqb_neq.
    + rewrite Hid. simpl. by apply Z.eqb_eq.
Qed.

Lemma roster_of_first_boxscore_witness :
  ∃ body,
    roster_handler registry_example leagues_example provider_example
                   "green" "2" []
    = (Ok body, calls_example) ∧
    RosterEntry.name <$> Roster.roster body = ["A2"; "A1"].
Proof.
  destruct (roster_of_first_boxscore registry_example leagues_example
              provider_example "green" "2" 2 [] calls_example
              [] [] boxscore_example teams_example)
    as (body & Hrun & _ & Hroster & _).
  - by left.
  - reflexivity.
  - reflexivity.
  - constructor.
  - right. reflexivity.
  - exists body. split; [exact Hrun|]. rewrite Hroster. reflexivity.
Defined.

(** A roster request made with the decimal string of the id of a team that
    plays in some fetched boxscore is answered with that id and with the
    owner and the championships the standings give for the team, for every
    id that is a safe integer. *)
Theorem roster_agrees_with_standings
    (teamsData : gmap string (gmap string OwnerInfo.t))
    (LEAGUES : client → Config.t) (P : provider)
    (division : string) (team : Team.t) (h h' : list call)
    (boxscores : list Boxscore.t) (teams : list Team.t) :
  division = "green" ∨ division = "white" →
  Js.safe (Team.id team) →
  fetchWeek P (client_of division) (LEAGUES (client_of division)) h
  = (inr (boxscores, teams), h') →
  Exists (plays (Team.id team)) boxscores →
  ∃ body,
    roster_handler teamsData LEAGUES P division (Js.toString (Team.id team)) h
    = (Ok body, h') ∧
    Roster.teamId body = Some (Team.id team) ∧
    Roster.owner body = Standing.owner (standing_of teamsData division team) ∧
    Roster.championships body
    = Standing.championships (standing_of teamsData division team).
Proof.
  intros Hd%valid_division_spec Hsafe Hfetch Hplays.
  pose proof (parseInt_toString (Team.id team) Hsafe) as Hid.
  destruct (proj2 (find_Some_iff
              (λ box, Js.eq_parsed (Boxscore.homeTeamId box)
                        (Js.parseInt (Js.toString (Team.id team)))
                      || Js.eq_parsed (Boxscore.awayTeamId box)
                        (Js.parseInt (Js.toString (Team.id team))))
              boxscores)) as [box Hfind].
  { eapply Exists_impl; [exact Hplays|]. intros b Hb. simpl.
    by apply (team_boxscore_test _ (Team.id team)). }
  eexists. split; [|split_and!].
  - rewrite roster_handler_valid, Hfetch by done.
    unfold find_team_boxscore. by rewrite Hfind.
  - done.
  - done.
  - done.
Qed.

Lemma roster_agrees_with_standings_witness :
  ∃ body,
    roster_handler registry_example leagues_example provider_example
                   "green" "1" []
    = (Ok body, calls_example) ∧
    Roster.teamId body = Some 1.
Proof.
  destruct (roster_agrees_with_standings registry_example leagues_example
              provider_example "green" (Team.mk 1 "One" 8 0 0 1200 900)
              [] calls_example [boxscore_example] teams_example)
    as (body & Hrun & Hid & _).
  - by left.
  - by vm_compute.
  - reflexivity.
  - left. left. reflexivity.
  - exists body. split; [exact Hrun|exact Hid].
Defined.

Lemma find_team_boxscore_Some boxscores teamId :
  is_Some (find_team_boxscore boxscores teamId)
  ↔ ∃ id, Js.parseInt teamId = Some id ∧ Exists (plays id) boxscores.
Proof.
  unfold find_team_boxscore. rewrite find_Some_iff.
  destruct (Js.parseInt teamId) as [id|] eqn:Hid.
  - split.
    + intros Hex. exists id. split; [done|].
      eapply Exists_impl; [exact Hex|]. intros b Hb. simpl in Hb.
      unfold plays. by rewrite orb_true_iff, !Z.eqb_eq in Hb.
    + intros (id' & [= <-] & Hex).
      eapply Exists_impl; [exact Hex|]. intros b Hb. simpl.
      unfold plays in Hb. by rewrite orb_true_iff, !Z.eqb_eq.
  - split.
    + intros Hex. apply Exists_exists in Hex as (b & _ & Hb). done.
    + by intros (id & ? & _).
Qed.

Lemma find_matchup_Some boxscores X Y :
  is_Some (find_matchup boxscores X Y)
  ↔ ∃ x y, Js.parseInt X = Some x ∧ Js.parseInt Y = Some y ∧
           Exists (opposes x y) boxscores.
Proof.
  unfold find_matchup. rewrite find_Some_iff.
  destruct (Js.parseInt X) as [x|] eqn:HX, (Js.parseInt Y) as [y|] eqn:HY.
  - split.
    + intros Hex. exists x, y. split_and!; try done.
      eapply Exists_impl; [exact Hex|]. intros b Hb. simpl in Hb.
      unfold opposes. by rewrite orb_true_iff, !andb_true_iff, !Z.eqb_eq in Hb.
    + intros (x' & y' & [= <-] & [= <-] & Hex).
      eapply Exists_impl; [exact Hex|]. intros b Hb. simpl.
      unfold opposes in Hb. by rewrite orb_true_iff, !andb_true_iff, !Z.eqb_eq.
  - split.
    + intros Hex. apply Exists_exists in Hex as (b & _ & Hb). simpl in Hb.
      by rewrite ?andb_false_r in Hb.
    + by intros (x' & y' & _ & ? & _).
  - split.
    + intros Hex. apply Exists_exists in Hex as (b & _ & Hb). simpl in Hb.
      by rewrite ?andb_false_r in Hb.
    + by intros (x' & y' & ? & _).
  - split.
    + intros Hex. apply Exists_exists in Hex as (b & _ & Hb). simpl in Hb.
      by rewrite ?andb_false_r in Hb.
    + by intros (x' & y' & ? & _).
Qed.

(** Once the week is fetched, a team-scoped request is answered 200 or
    404, and 200 exactly when the requested ids are numbers and a fetched
    boxscore has them: the team as home or away for a roster, the pair in
    either orientation for a matchup. *)
Theorem lookup_status_exact
    (teamsData : gmap string (gmap string OwnerInfo.t))
    (LEAGUES : client → Config.t) (P : provider)
    (division : string) (h h' : list call)
    (boxscores : list Boxscore.t) (teams : list Team.t) :
  division = "green" ∨ division = "white" →
  fetchWeek P (client_of division) (LEAGUES (client_of division)) h
  = (inr (boxscores, teams), h') →
  (∀ teamId,
     let r := (roster_handler teamsData LEAGUES P division teamId h).1 in
     (status r = 200 ∨ status r = 404) ∧
     (status r = 200 ↔
      ∃ id, Js.parseInt teamId = Some id ∧ Exists (plays id) boxscores)) ∧
  (∀ X Y,
     let r := (matchup_handler teamsData LEAGUES P division X Y h).1 in
     (status r = 200 ∨ status r = 404) ∧
     (status r = 200 ↔
      ∃ x y, Js.parseInt X = Some x ∧ Js.parseInt Y = Some y ∧
             Exists (opposes x y) boxscores)).
Proof.
  intros Hd%valid_division_spec Hfetch. split.
  - intros teamId r. unfold r.
    rewrite roster_handler_valid, Hfetch by done.
    rewrite <- find_team_boxscore_Some.
    destruct (find_team_boxscore boxscores teamId) as [box|]; simpl.
    + split; [by left|]. split; [by eexists|done].
    + split; [by right|]. split; [done|by intros [? ?]].
  - intros X Y r. unfold r.
    rewrite matchup_handler_valid, Hfetch by done.
    rewrite <- find_matchup_Some.
    destruct (find_matchup boxscores X Y) as [box|]; simpl.
    + split; [by left|]. split; [by eexists|done].
    + split; [by right|]. split; [done|by intros [? ?]].
Qed.

Lemma lookup_status_exact_witness :
  status (matchup_handler registry_example leagues_example provider_example
            "green" "2" "1" []).1 = 200.
Proof.
  destruct (lookup_status_exact registry_example leagues_example
              provider_example "green" [] calls_example
              [boxscore_example] teams_example) as [_ Hmatchup].
  - by left.
  - reflexivity.
  - apply (Hmatchup "2" "1"). exists 2, 1. split_and!; try reflexivity.
    left. right. split; reflexivity.
Defined.

(** The matchup handler depends on the two requested ids only through the
    numbers [parseInt] reads in them; so do the team id, the team name and
    the roster the roster handler answers with. *)
Theorem requests_read_through_parseInt
    (teamsData : gmap string (gmap string OwnerInfo.t))
    (LEAGUES : client → Config.t) (P : provider)
    (division X X' Y Y' : string) (h : list call) :
  Js.parseInt X = Js.parseInt X' →
  Js.parseInt Y = Js.parseInt Y' →
  matchup_handler teamsData LEAGUES P division X Y h
  = matchup_handler teamsData LEAGUES P division X' Y' h ∧
  (∀ boxscores, find_team_boxscore boxscores X = find_team_boxscore boxscores X') ∧
  (∀ teamBoxscore teams,
     let body := roster_body teamsData division X teamBoxscore teams in
     let body' := roster_body teamsData division X' teamBoxscore teams in
     Roster.teamId body = Roster.teamId body' ∧
     Roster.teamName body = Roster.teamName body' ∧
     Roster.roster body = Roster.roster body').
Proof.
  intros HX HY.
  assert (∀ l, find_matchup l X Y = find_matchup l X' Y') as Hfind.
  { intros l. unfold find_matchup. by rewrite HX, HY. }
  split_and!.
  - destruct (valid_division division) eqn:Hd.
    + rewrite !matchup_handler_valid by done.
      destruct (fetchWeek _ _ _ h) as [[e|[bs teams]] h']; [done|].
      by rewrite Hfind.
    + by rewrite !matchup_handler_invalid.
  - intros l. unfold find_team_boxscore. by rewrite HX.
  - intros teamBoxscore teams. simpl. by rewrite HX.
Qed.

Lemma requests_read_through_parseInt_witness :
  matchup_handler registry_example leagues_example provider_example
                  "green" "1" "2" []
  = matchup_handler registry_example leagues_example provider_example
                    "green" "01" " 2nd" [].
Proof.
  apply (requests_read_through_parseInt registry_example leagues_example
           provider_example "green" "1" "01" "2" " 2nd" []); reflexivity.
Defined.

(** ** Order of the matchup-detail rosters *)

Lemma sort_fmap {A B} (g : A → B) (cmpA : A → A → Q) (cmpB : B → B → Q)
    (l : list A) :
  (∀ x y, cmpB (g x) (g y) = cmpA x y) →
  Js.sort cmpB (g <$> l) = g <$> Js.sort cmpA l.
Proof.
  intros Hcmp.
  assert (∀ x r, Js.insert cmpB (g x) (g <$> r) = g <$> Js.insert cmpA x r)
    as Hins.
  { intros x r. induction r as [|y r IH]; [done|].
    rewrite fmap_cons.
    change (Js.insert cmpB (g x) (g y :: (g <$> r)))
      with (if Js.before cmpB (g x) (g y) then g x :: g y :: (g <$> r)
            else g y :: Js.insert cmpB (g x) (g <$> r)).
    change (Js.insert cmpA x (y :: r))
      with (if Js.before cmpA x y then x :: y :: r
            else y :: Js.insert cmpA x r).
    unfold Js.before. rewrite Hcmp, IH.
    by destruct (Qle_bool (cmpA x y) 0). }
  induction l as [|x r IH]; [done|].
  rewrite fmap_cons.
  change (Js.sort cmpB (g x :: (g <$> r)))
    with (Js.insert cmpB (g x) (Js.sort cmpB (g <$> r))).
  by rewrite IH, Hins.
Qed.

Lemma Sorted_through_fmap {A B} (g : A → B) (R : relation A) (R' : relation B)
    (l : list A) :
  (∀ x y, R x y → R' (g x) (g y)) → Sorted R l → Sorted R' (g <$> l).
Proof.
  intros HR. induction 1 as [|x r Hr IH Hx]; [constructor|].
  rewrite fmap_cons. constructor; [done|].
  destruct Hx; [constructor|]. rewrite fmap_cons. constructor. auto.
Qed.

Lemma detail_cmp_players_le p q :
  cmp_le detail_cmp_players p q
  ↔ (table_priority (Player.rosteredPosition p) ≤ table_priority (Player.rosteredPosition q))%Z.
Proof.
  unfold cmp_le, Js.before, detail_cmp_players, detail_table_cmp.
  by rewrite Qle_bool_iff, inject_Z_nonpos.
Qed.

Lemma detail_cmp_players_total p q :
  Js.before detail_cmp_players p q = false →
  Js.before detail_cmp_players q p = true.
Proof.
  rewrite <- not_true_iff_false. intros Hn. apply detail_cmp_players_le.
  rewrite (detail_cmp_players_le p q) in Hn. lia.
Qed.

Lemma detail_cmp_players_trans p q r :
  Js.before detail_cmp_players p q = true →
  Js.before detail_cmp_players q r = true →
  Js.before detail_cmp_players p r = true.
Proof.
  intros Hpq%detail_cmp_players_le Hqr%detail_cmp_players_le.
  apply detail_cmp_players_le. lia.
Qed.

Lemma formatRoster_players (roster : list Player.t) :
  plain_slots roster →
  formatRoster roster
  = detail_entry <$>
      Js.sort detail_cmp_players
        (filter (λ player, starter_slot (Player.rosteredPosition player)) roster).
Proof. intros Hplain. rewrite formatRoster_table by done. by apply sort_fmap. Qed.

Lemma format_roster_players (roster : list Player.t) :
  plain_slots roster →
  format_roster roster = roster_entry <$> Js.sort roster_cmp_players roster.
Proof. intros Hplain. rewrite format_roster_table by done. by apply sort_fmap. Qed.

(** For a roster none of whose slot names is a property the table object
    inherits from [Object.prototype], the roster of the matchup detail is
    in non-decreasing slot priority, and players of equal priority keep the
    provider's order. *)
Theorem detail_roster_sorted_stable (roster : list Player.t) :
  plain_slots roster →
  let out := formatRoster roster in
  Sorted (λ a b, (table_priority (DetailEntry.position a)
                  ≤ table_priority (DetailEntry.position b))%Z) out ∧
  ∀ k,
    filter (λ e, table_priority (DetailEntry.position e) = k) out
    = detail_entry <$>
        filter (λ player,
                  table_priority (Player.rosteredPosition player) = k ∧
                  Player.rosteredPosition player ≠ "Bench" ∧
                  Player.rosteredPosition player ≠ "IR") roster.
Proof.
  intros Hplain out. unfold out. rewrite formatRoster_players by done. split.
  - apply (Sorted_through_fmap detail_entry
             (λ p q, (table_priority (Player.rosteredPosition p)
                      ≤ table_priority (Player.rosteredPosition q))%Z)); [done|].
    eapply Sorted_weaken;
      [|apply (sort_Sorted detail_cmp_players), detail_cmp_players_total].
    intros p q. apply detail_cmp_players_le.
  - intros k. rewrite filter_fmap. f_equal.
    rewrite sort_stable.
    + rewrite list_filter_filter. apply list_filter_iff.
      intros player. unfold starter_slot.
      by rewrite andb_True, !bool_decide_spec.
    + intros p q Hp Hq. apply detail_cmp_players_le. simpl in *. lia.
Qed.

Lemma roster_cmp_players_le p q :
  cmp_le roster_cmp_players p q ↔ roster_order (roster_entry p) (roster_entry q).
Proof. apply roster_cmp_le. Qed.

Lemma starters_commute_with_sort (roster : list Player.t) :
  filter (λ player, starter_slot (Player.rosteredPosition player))
         (Js.sort roster_cmp_players roster)
  = Js.sort detail_cmp_players
      (filter (λ player, starter_slot (Player.rosteredPosition player)) roster).
Proof.
  assert (Transitive (cmp_le roster_cmp_players)) as Htrans.
  { intros p q r Hpq%roster_cmp_players_le Hqr%roster_cmp_players_le.
    apply roster_cmp_players_le. by etrans. }
  apply sort_unique.
  - apply detail_cmp_players_total.
  - apply detail_cmp_players_trans.
  - by rewrite sort_Permutation.
  - apply StronglySorted_Sorted.
    apply (StronglySorted_weaken (cmp_le roster_cmp_players)
             (cmp_le detail_cmp_players)
             (λ player, starter_slot (Player.rosteredPosition player))).
    + intros p q Hp Hq [[_ Hpq]|[_ Hpq]]%roster_cmp_players_le;
        apply detail_cmp_players_le; simpl in *; [|done].
      apply Is_true_true in Hq. congruence.
    + apply Forall_forall. by intros p [? _]%list_elem_of_filter.
    + apply StronglySorted_filter, Sorted_StronglySorted; [done|].
      apply sort_Sorted. intros p q. apply roster_cmp_total.
  - intros x. rewrite !list_filter_filter. apply sort_stable.
    intros p q [[Hxp Hpx] Hp] [[Hxq Hqx] Hq].
    apply detail_cmp_players_le in Hxp, Hpx, Hxq, Hqx.
    apply roster_cmp_players_le. right. simpl.
    apply Is_true_true in Hp, Hq. split; [congruence|lia].
Qed.

Lemma plain_slots_example : plain_slots (Boxscore.homeRoster boxscore_example).
Proof.
  unfold plain_slots.
  repeat (apply Forall_cons; split;
          [apply (bool_decide_unpack _); by vm_compute|]).
  constructor.
Qed.

Lemma detail_roster_sorted_stable_witness :
  DetailEntry.name <$> formatRoster (Boxscore.homeRoster boxscore_example)
  = ["H3"; "H1"] ∧
  Sorted (λ a b, (table_priority (DetailEntry.position a)
                  ≤ table_priority (DetailEntry.position b))%Z)
         (formatRoster (Boxscore.homeRoster boxscore_example)).
Proof.
  split; [reflexivity|].
  apply (detail_roster_sorted_stable (Boxscore.homeRoster boxscore_example)).
  apply plain_slots_example.
Defined.

(** For such a roster the starters appear in the same order in the roster
    view and in the matchup-detail view. *)
Theorem starters_agree_between_views (roster : list Player.t) :
  plain_slots roster →
  (λ e, (RosterEntry.name e, RosterEntry.slotPosition e)) <$>
    filter (λ e, RosterEntry.isStarter e = true) (format_roster roster)
  = (λ e, (DetailEntry.name e, DetailEntry.position e)) <$> formatRoster roster.
Proof.
  intros Hplain.
  rewrite format_roster_players, formatRoster_players, filter_fmap by done.
  rewrite <- !list_fmap_compose.
  erewrite (list_filter_iff _ (λ player, starter_slot (Player.rosteredPosition player)));
    [|intros player; simpl; by rewrite Is_true_true].
  by rewrite starters_commute_with_sort.
Qed.

Lemma starters_agree_between_views_witness :
  (λ e, (RosterEntry.name e, RosterEntry.slotPosition e)) <$>
    filter (λ e, RosterEntry.isStarter e = true)
      (format_roster (Boxscore.homeRoster boxscore_example))
  = [("H3", "QB"); ("H1", "K")] ∧
  (λ e, (DetailEntry.name e, DetailEntry.position e)) <$>
    formatRoster (Boxscore.homeRoster boxscore_example)
  = [("H3", "QB"); ("H1", "K")].
Proof.
  split; [reflexivity|].
  rewrite <- (starters_agree_between_views
                (Boxscore.homeRoster boxscore_example) plain_slots_example).
  reflexivity.
Defined.

(** ** The league handler and the provider calls *)

Lemma division_of_client_of (division : string) :
  division = "green" ∨ division = "white" →
  division_of (client_of division) = division.
Proof. by intros [->| ->]. Qed.

(** For a valid division whose four fetches succeed, the league handler
    answers with the standings built from the teams of the current scoring
    period and with the summaries of the boxscores fetched with the current
    matchup period as both period arguments, using the teams fetched at
    that period; it issues exactly these four calls, in this order. *)
Theorem league_handler_ok
    (teamsData : gmap string (gmap string OwnerInfo.t))
    (LEAGUES : client → Config.t) (P : provider)
    (division : string) (h : list call) (info : LeagueInfo.t)
    (teams teams' : list Team.t) (scoreboard : list Boxscore.t) :
  division = "green" ∨ division = "white" →
  getLeagueInfo P h (client_of division)
    (Config.seasonId (LEAGUES (client_of division))) = inr info →
  getTeamsAtWeek P
    (h ++ take 1 (league_calls (client_of division)
                    (Config.seasonId (LEAGUES (client_of division))) info))%list
    (client_of division) (Config.seasonId (LEAGUES (client_of division)))
    (LeagueInfo.currentScoringPeriodId info) = inr teams →
  getBoxscoreForWeek P
    (h ++ take 2 (league_calls (client_of division)
                    (Config.seasonId (LEAGUES (client_of division))) info))%list
    (client_of division) (Config.seasonId (LEAGUES (client_of division)))
    (LeagueInfo.currentMatchupPeriodId info)
    (LeagueInfo.currentMatchupPeriodId info) = inr scoreboard →
  getTeamsAtWeek P
    (h ++ take 3 (league_calls (client_of division)
                    (Config.seasonId (LEAGUES (client_of division))) info))%list
    (client_of division) (Config.seasonId (LEAGUES (client_of division)))
    (LeagueInfo.currentMatchupPeriodId info) = inr teams' →
  league_handler teamsData LEAGUES P division h
  = (Ok {| League.data :=
             {| LeagueData.name := LeagueInfo.name info;
                LeagueData.currentWeek := LeagueInfo.currentMatchupPeriodId info;
                LeagueData.standings := build_standings teamsData division teams |};
           League.matchups := summarize scoreboard teams' |},
     (h ++ league_calls (client_of division)
             (Config.seasonId (LEAGUES (client_of division))) info)%list).
Proof.
  intros Hd Hinfo Hteams Hboxes Hteams'.
  pose proof (proj2 (valid_division_spec division) Hd) as Hvalid.
  unfold league_handler, try_catch. rewrite Hvalid. simpl.
  unfold mbind at 1, io_bind at 1.
  erewrite getLeagueData_ok; [|exact Hinfo|exact Hteams].
  unfold mbind at 1, io_bind at 1. simpl LeagueData.currentWeek.
  erewrite getMatchups_ok;
    [|exact Hboxes|rewrite <- app_assoc; exact Hteams'].
  rewrite division_of_client_of by done. simpl.
  by rewrite <- app_assoc.
Qed.

Lemma league_handler_ok_witness :
  ∃ body,
    league_handler registry_example leagues_example provider_example "green" []
    = (Ok body,
       league_calls greenClient 2025 (LeagueInfo.mk "League" 3 3)) ∧
    Standing.id <$> LeagueData.standings (League.data body) = [1; 2] ∧
    League.matchups body = [Matchup.mk "One" 1 (101 # 1) "Two" 2 (88 # 1)].
Proof.
  eexists. split; [|split].
  - apply (league_handler_ok registry_example leagues_example provider_example
             "green" [] (LeagueInfo.mk "League" 3 3)
             teams_example teams_example [boxscore_example]);
      [by left|reflexivity..].
  - reflexivity.
  - reflexivity.
Defined.

Lemma fetchWeek_rejected P c config h e :
  getLeagueInfo P h c (Config.seasonId config) = inl e →
  fetchWeek P c config h
  = (inl e, (h ++ [GetLeagueInfo c (Config.seasonId config)])%list).
Proof.
  intros He. unfold fetchWeek, mbind, io_bind, fetchLeagueInfo, await.
  by rewrite He.
Qed.

Lemma fetchWeek_info P c config h info :
  getLeagueInfo P h c (Config.seasonId config) = inr info →
  fetchWeek P c config h
  = (match
       getBoxscoreForWeek P
         (h ++ take 1 (week_calls c (Config.seasonId config) info))%list
         c (Config.seasonId config)
         (LeagueInfo.currentMatchupPeriodId info)
         (LeagueInfo.currentScoringPeriodId info),
       getTeamsAtWeek P
         (h ++ take 2 (week_calls c (Config.seasonId config) info))%list
         c (Config.seasonId config)
         (LeagueInfo.currentScoringPeriodId info)
     with
     | inl e, _ => inl e
     | _, inl e => inl e
     | inr boxscores, inr teams => inr (boxscores, teams)
     end,
     (h ++ week_calls c (Config.seasonId config) info)%list).
Proof.
  intros Hinfo.
  unfold fetchWeek, mbind, io_bind, fetchLeagueInfo, fetchBoxscores,
    fetchTeams, all, await.
  rewrite Hinfo. simpl. by rewrite <- !app_assoc.
Qed.

(** When the league-info call rejects, each division-scoped handler
    answers 500 with the message of the rejection and issues no further
    provider call. *)
Theorem league_info_rejection_stops
    (teamsData : gmap string (gmap string OwnerInfo.t))
    (LEAGUES : client → Config.t) (P : provider)
    (division : string) (h : list call) (e : string) :
  division = "green" ∨ division = "white" →
  getLeagueInfo P h (client_of division)
    (Config.seasonId (LEAGUES (client_of division))) = inl e →
  league_handler teamsData LEAGUES P division h
  = (Error 500 e,
     (h ++ [GetLeagueInfo (client_of division)
              (Config.seasonId (LEAGUES (client_of division)))])%list) ∧
  (∀ teamId,
     roster_handler teamsData LEAGUES P division teamId h
     = (Error 500 e,
        (h ++ [GetLeagueInfo (client_of division)
                 (Config.seasonId (LEAGUES (client_of division)))])%list)) ∧
  (∀ homeTeamId awayTeamId,
     matchup_handler teamsData LEAGUES P division homeTeamId awayTeamId h
     = (Error 500 e,
        (h ++ [GetLeagueInfo (client_of division)
                 (Config.seasonId (LEAGUES (client_of division)))])%list)).
Proof.
  intros Hd%valid_division_spec He. split_and!.
  - unfold league_handler, try_catch. rewrite Hd. simpl.
    unfold mbind at 1, io_bind at 1, getLeagueData.
    unfold mbind at 1, io_bind at 1, fetchLeagueInfo, await.
    by rewrite He.
  - intros teamId.
    by rewrite roster_handler_valid, (fetchWeek_rejected _ _ _ _ e).
  - intros X Y.
    by rewrite matchup_handler_valid, (fetchWeek_rejected _ _ _ _ e).
Qed.

Lemma league_info_rejection_stops_witness :
  roster_handler registry_example leagues_example provider_down "white" "1" []
  = (Error 500 "ECONNRESET", [GetLeagueInfo whiteClient 2025]).
Proof.
  destruct (league_info_rejection_stops registry_example leagues_example
              provider_down "white" [] "ECONNRESET") as (_ & Hroster & _).
  - by right.
  - reflexivity.
  - apply Hroster.
Defined.

(** The boxscores and the teams of the week are requested together: when
    either request rejects while the other succeeds, the team-scoped
    handlers answer 500 with the message of the rejection, and both calls
    have been issued whichever it was. *)
Theorem week_rejection_after_both_calls
    (teamsData : gmap string (gmap string OwnerInfo.t))
    (LEAGUES : client → Config.t) (P : provider)
    (division : string) (h : list call) (info : LeagueInfo.t) (e : string)
    (boxscores : string + list Boxscore.t) (teams : string + list Team.t) :
  division = "green" ∨ division = "white" →
  getLeagueInfo P h (client_of division)
    (Config.seasonId (LEAGUES (client_of division))) = inr info →
  getBoxscoreForWeek P
    (h ++ take 1 (week_calls (client_of division)
                    (Config.seasonId (LEAGUES (client_of division))) info))%list
    (client_of division) (Config.seasonId (LEAGUES (client_of division)))
    (LeagueInfo.currentMatchupPeriodId info)
    (LeagueInfo.currentScoringPeriodId info) = boxscores →
  getTeamsAtWeek P
    (h ++ take 2 (week_calls (client_of division)
                    (Config.seasonId (LEAGUES (client_of division))) info))%list
    (client_of division) (Config.seasonId (LEAGUES (client_of division)))
    (LeagueInfo.currentScoringPeriodId info) = teams →
  (boxscores = inl e ∧ ∃ ts, teams = inr ts) ∨
  ((∃ bs, boxscores = inr bs) ∧ teams = inl e) →
  (∀ teamId,
     roster_handler teamsData LEAGUES P division teamId h
     = (Error 500 e,
        (h ++ week_calls (client_of division)
                (Config.seasonId (LEAGUES (client_of division))) info)%list)) ∧
  (∀ homeTeamId awayTeamId,
     matchup_handler teamsData LEAGUES P division homeTeamId awayTeamId h
     = (Error 500 e,
        (h ++ week_calls (client_of division)
                (Config.seasonId (LEAGUES (client_of division))) info)%list)).
Proof.
  intros Hd%valid_division_spec Hinfo Hboxes Hteams Hrej.
  assert (fetchWeek P (client_of division) (LEAGUES (client_of division)) h
          = (inl e,
             (h ++ week_calls (client_of division)
                     (Config.seasonId (LEAGUES (client_of division))) info)%list))
    as Hfetch.
  { rewrite (fetchWeek_info _ _ _ _ info) by done. rewrite Hboxes, Hteams.
    by destruct Hrej as [[-> [ts ->]]|[[bs ->] ->]]. }
  split.
  - intros teamId. by rewrite roster_handler_valid, Hfetch.
  - intros X Y. by rewrite matchup_handler_valid, Hfetch.
Qed.

Lemma week_rejection_after_both_calls_witness :
  roster_handler registry_example leagues_example provider_partial "green" "1" []
  = (Error 500 "ETIMEDOUT", calls_example).
Proof.
  destruct (week_rejection_after_both_calls registry_example leagues_example
              provider_partial "green" [] (LeagueInfo.mk "League" 3 3)
              "ETIMEDOUT" (inl "ETIMEDOUT") (inr teams_example))
    as [Hroster _].
  - by left.
  - reflexivity.
  - reflexivity.
  - reflexivity.
  - left. split; [reflexivity|by eexists].
  - apply Hroster.
Defined.

(** ** What every answer looks like *)

Lemma app_cons_ne {A} (h rest : list A) (c : A) : (h ++ c :: rest)%list ≠ h.
Proof.
  intros Heq. apply (f_equal length) in Heq.
  rewrite length_app in Heq. simpl in Heq. lia.
Qed.

Lemma league_handler_valid_cases teamsData LEAGUES P division h :
  valid_division division = true →
  ∃ r new,
    league_handler teamsData LEAGUES P division h = (r, (h ++ new)%list) ∧
    (status r = 200 ∨ status r = 500) ∧
    Forall (λ c, call_client c = client_of division) new ∧
    (1 ≤ length new ≤ 4)%nat.
Proof.
  intros Hd. unfold league_handler, try_catch. rewrite Hd. simpl.
  unfold mbind at 1, io_bind at 1, getLeagueData.
  unfold mbind at 1, io_bind at 1, fetchLeagueInfo, await.
  destruct (getLeagueInfo P h _ _) as [e|info]; simpl.
  { do 2 eexists.
    split_and!; [done|by right|by repeat constructor|simpl; lia..]. }
  unfold mbind at 1, io_bind at 1, fetchTeams, await.
  destruct (getTeamsAtWeek P _ _ _ _) as [e|teams]; simpl.
  { do 2 eexists. split_and!;
      [by rewrite <- app_assoc|by right|by repeat constructor|simpl; lia..]. }
  unfold mbind at 1, io_bind at 1, getMatchups.
  unfold mbind at 1, io_bind at 1, all, fetchBoxscores, fetchTeams, await.
  destruct (getBoxscoreForWeek P _ _ _ _ _) as [e|boxscores];
    try destruct (getTeamsAtWeek P _ _ _ _) as [e'|teams']; simpl;
    (do 2 eexists; split_and!;
       [by rewrite <- !app_assoc|first [by left|by right]
       |by repeat constructor|simpl; lia..]).
Qed.

Lemma team_handlers_valid_cases teamsData LEAGUES P division h :
  valid_division division = true →
  ∃ new,
    (fetchWeek P (client_of division) (LEAGUES (client_of division)) h).2
    = (h ++ new)%list ∧
    Forall (λ c, call_client c = client_of division) new ∧
    (1 ≤ length new ≤ 3)%nat ∧
    (∀ teamId,
       (roster_handler teamsData LEAGUES P division teamId h).2 = (h ++ new)%list ∧
       status (roster_handler teamsData LEAGUES P division teamId h).1
       ∈ [200; 404; 500]) ∧
    (∀ X Y,
       (matchup_handler teamsData LEAGUES P division X Y h).2 = (h ++ new)%list ∧
       status (matchup_handler teamsData LEAGUES P division X Y h).1
       ∈ [200; 404; 500]).
Proof.
  intros Hd.
  assert (∃ new,
            (fetchWeek P (client_of division) (LEAGUES (client_of division)) h).2
            = (h ++ new)%list ∧
            Forall (λ c, call_client c = client_of division) new ∧
            (1 ≤ length new ≤ 3)%nat) as (new & Hnew & Hcl & Hlen).
  { destruct (getLeagueInfo P h (client_of division)
                (Config.seasonId (LEAGUES (client_of division))))
      as [e|info] eqn:Hinfo.
    - rewrite (fetchWeek_rejected _ _ _ _ e) by done.
      eexists. split_and!; [done|by repeat constructor|simpl; lia..].
    - rewrite (fetchWeek_info _ _ _ _ info) by done.
      eexists. split_and!; [done|by repeat constructor|simpl; lia..]. }
  exists new. do 3 (split; [done|]). split.
  - intros teamId. rewrite roster_handler_valid by done.
    destruct (fetchWeek _ _ _ h) as [[e|[bs ts]] h1]; simpl in *.
    + split; [done|]. rewrite !elem_of_cons. auto.
    + split; [done|].
      destruct (find_team_boxscore bs teamId); simpl;
        rewrite !elem_of_cons; auto.
  - intros X Y. rewrite matchup_handler_valid by done.
    destruct (fetchWeek _ _ _ h) as [[e|[bs ts]] h1]; simpl in *.
    + split; [done|]. rewrite !elem_of_cons. auto.
    + split; [done|].
      destruct (find_matchup bs X Y); simpl;
        rewrite !elem_of_cons; auto.
Qed.

(** A division-scoped request is answered 400 exactly when the division
    token is neither [green] nor [white], and that is also the only case in
    which no provider call is issued.  The league handler never answers
    404. *)
Theorem bad_request_iff_invalid_division
    (teamsData : gmap string (gmap string OwnerInfo.t))
    (LEAGUES : client → Config.t) (P : provider)
    (division teamId X Y : string) (h : list call) :
  let invalid := ¬ (division = "green" ∨ division = "white") in
  let league := league_handler teamsData LEAGUES P division h in
  let roster := roster_handler teamsData LEAGUES P division teamId h in
  let matchup := matchup_handler teamsData LEAGUES P division X Y h in
  (status league.1 = 400 ↔ invalid) ∧ (league.2 = h ↔ invalid) ∧
  (status roster.1 = 400 ↔ invalid) ∧ (roster.2 = h ↔ invalid) ∧
  (status matchup.1 = 400 ↔ invalid) ∧ (matchup.2 = h ↔ invalid) ∧
  status league.1 ≠ 404.
Proof.
  intros invalid league roster matchup. unfold invalid, league, roster, matchup.
  rewrite <- valid_division_spec.
  destruct (valid_division division) eqn:Hd.
  - destruct (league_handler_valid_cases teamsData LEAGUES P division h Hd)
      as (r & newL & -> & Hst & _ & HlenL).
    destruct (team_handlers_valid_cases teamsData LEAGUES P division h Hd)
      as (newT & _ & _ & HlenT & Hroster & Hmatchup).
    destruct (Hroster teamId) as [-> Hsr], (Hmatchup X Y) as [-> Hsm].
    rewrite !elem_of_cons, elem_of_nil in Hsr, Hsm. simpl.
    assert (∀ new : list call, (1 ≤ length new)%nat → (h ++ new)%list ≠ h) as Hne.
    { intros [|c rest] Hlen; [simpl in Hlen; lia|apply app_cons_ne]. }
    split_and!; try (split; [|done]); try lia; intros Heq; exfalso.
    + by apply (Hne newL); [lia|].
    + by apply (Hne newT); [lia|].
    + by apply (Hne newT); [lia|].
  - rewrite league_handler_invalid, roster_handler_invalid,
      matchup_handler_invalid by done. simpl.
    split_and!; try done.
Qed.

(** Every provider call of a division-scoped handler is addressed to the
    client of the requested division; the league handler issues at most
    four calls, and the roster and matchup handlers issue the same calls,
    at most three. *)
Theorem calls_stay_with_division
    (teamsData : gmap string (gmap string OwnerInfo.t))
    (LEAGUES : client → Config.t) (P : provider)
    (division teamId X Y : string) (h : list call) :
  ∃ newL newT,
    (league_handler teamsData LEAGUES P division h).2 = (h ++ newL)%list ∧
    (roster_handler teamsData LEAGUES P division teamId h).2 = (h ++ newT)%list ∧
    (matchup_handler teamsData LEAGUES P division X Y h).2 = (h ++ newT)%list ∧
    Forall (λ c, call_client c = client_of division) (newL ++ newT)%list ∧
    (length newL ≤ 4)%nat ∧ (length newT ≤ 3)%nat.
Proof.
  destruct (valid_division division) eqn:Hd.
  - destruct (league_handler_valid_cases teamsData LEAGUES P division h Hd)
      as (r & newL & HL & _ & HclL & HlenL).
    destruct (team_handlers_valid_cases teamsData LEAGUES P division h Hd)
      as (newT & _ & HclT & HlenT & Hroster & Hmatchup).
    exists newL, newT. rewrite HL. split_and!.
    + done.
    + apply Hroster.
    + apply Hmatchup.
    + by apply Forall_app.
    + lia.
    + lia.
  - exists [], [].
    rewrite league_handler_invalid, roster_handler_invalid,
      matchup_handler_invalid by done. simpl.
    rewrite app_nil_r. split_and!; try done; lia.
Qed.

(** ** Team names and the registry across the views *)

Lemma last_filter_find (teams : list Team.t) (id : Z) :
  NoDup (Team.id <$> teams) →
  last (filter (λ t, Team.id t = id) teams)
  = Js.find (λ t, bool_decide (Team.id t = id)) teams.
Proof.
  induction teams as [|t r IH]; [done|].
  rewrite fmap_cons, NoDup_cons. intros [Hnotin Hnodup].
  rewrite filter_cons. simpl. destruct (decide (Team.id t = id)) as [Heq|Hne].
  - rewrite bool_decide_eq_true_2 by done.
    rewrite filter_none; [done|]. apply Forall_forall.
    intros t' Ht' Heq'. apply Hnotin. rewrite Heq, <- Heq'.
    by apply list_elem_of_fmap_2.
  - rewrite bool_decide_eq_false_2 by done. auto.
Qed.

(** When the fetched teams have distinct ids, the summary of a boxscore
    and its matchup detail name the two teams alike. *)
Theorem summary_and_detail_names_agree
    (teamsData : gmap string (gmap string OwnerInfo.t))
    (division : string) (scoreboard : list Boxscore.t) (teams : list Team.t)
    (i : nat) (box : Boxscore.t) :
  NoDup (Team.id <$> teams) →
  scoreboard !! i = Some box →
  ∃ m, summarize scoreboard teams !! i = Some m ∧
       Matchup.homeTeam m
       = Detail.homeTeam (detail_body teamsData division box teams) ∧
       Matchup.awayTeam m
       = Detail.awayTeam (detail_body teamsData division box teams).
Proof.
  intros Hnodup Hbox. unfold summarize.
  rewrite list_lookup_fmap, Hbox. simpl. eexists. split; [done|]. simpl.
  rewrite !build_teamMap_lookup, !last_filter_find by done.
  split.
  - by destruct (Js.find _ teams).
  - by destruct (Js.find (λ t, bool_decide (Team.id t = Boxscore.awayTeamId box))
                         teams).
Qed.

Lemma summary_and_detail_names_agree_witness :
  ∃ m, summarize [boxscore_example] teams_example !! 0%nat = Some m ∧
       Matchup.homeTeam m = "One" ∧ Matchup.awayTeam m = "Two".
Proof.
  destruct (summary_and_detail_names_agree registry_example "green"
              [boxscore_example] teams_example 0 boxscore_example)
    as (m & Hm & Hhome & Haway).
  - apply (bool_decide_unpack _). vm_compute. exact I.
  - reflexivity.
  - exists m. split; [exact Hm|]. rewrite Hhome, Haway. split; reflexivity.
Defined.

(** With two teams of one id the two views can differ: the summary takes
    the last team with the id, the detail the first. *)
Example duplicate_ids_example :
  let teams := [Team.mk 1 "First" 0 0 0 0 0; Team.mk 1 "Second" 0 0 0 0 0;
                Team.mk 2 "Two" 0 0 0 0 0] in
  Matchup.homeTeam <$> summarize [boxscore_example] teams = ["Second"] ∧
  Detail.homeTeam (detail_body ∅ "green" boxscore_example teams) = "First".
Proof. split; vm_compute; reflexivity. Qed.

Lemma ownerInfo_of_division teamsData teamsData' division key :
  teamsData !! division = teamsData' !! division →
  ownerInfo_of teamsData division key = ownerInfo_of teamsData' division key.
Proof. unfold ownerInfo_of. by intros ->. Qed.

(** The answers for a division read the registry only under that
    division: two registries that agree on it give the same answers. *)
Theorem registry_read_by_division
    (teamsData teamsData' : gmap string (gmap string OwnerInfo.t))
    (LEAGUES : client → Config.t) (P : provider)
    (division : string) (h : list call) :
  teamsData !! division = teamsData' !! division →
  league_handler teamsData LEAGUES P division h
  = league_handler teamsData' LEAGUES P division h ∧
  (∀ teamId,
     roster_handler teamsData LEAGUES P division teamId h
     = roster_handler teamsData' LEAGUES P division teamId h) ∧
  (∀ X Y,
     matchup_handler teamsData LEAGUES P division X Y h
     = matchup_handler teamsData' LEAGUES P division X Y h).
Proof.
  intros Hreg.
  destruct (valid_division division) eqn:Hd.
  - split_and!.
    + unfold league_handler, try_catch. rewrite Hd. simpl.
      unfold mbind at 1 3, io_bind at 1 3, getLeagueData.
      unfold mbind at 1 4, io_bind at 1 4.
      destruct (fetchLeagueInfo P _ _ h) as [[e|info] h1]; [done|].
      unfold mbind at 1 3, io_bind at 1 3.
      destruct (fetchTeams P _ _ _ h1) as [[e|teams] h2]; [done|].
      simpl.
      replace (build_standings teamsData' (division_of (client_of division)) teams)
        with (build_standings teamsData (division_of (client_of division)) teams);
        [done|].
      unfold build_standings. f_equal. apply list_fmap_ext.
      intros _ team _. unfold standing_of.
      rewrite division_of_client_of by by apply valid_division_spec.
      by rewrite (ownerInfo_of_division teamsData teamsData').
    + intros teamId. rewrite !roster_handler_valid by done.
      destruct (fetchWeek _ _ _ h) as [[e|[bs ts]] h']; [done|].
      destruct (find_team_boxscore bs teamId); [|done].
      unfold roster_body.
      by rewrite (ownerInfo_of_division teamsData teamsData').
    + intros X Y. rewrite !matchup_handler_valid by done.
      destruct (fetchWeek _ _ _ h) as [[e|[bs ts]] h']; [done|].
      destruct (find_matchup bs X Y); [|done].
      unfold detail_body.
      by rewrite !(ownerInfo_of_division teamsData teamsData').
  - split_and!; intros.
    + by rewrite !league_handler_invalid.
    + by rewrite !roster_handler_invalid.
    + by rewrite !matchup_handler_invalid.
Qed.

Lemma registry_read_by_division_witness :
  roster_handler registry_example leagues_example provider_example "green" "1" []
  = roster_handler (<["white" := ∅]> registry_example) leagues_example
      provider_example "green" "1" [].
Proof.
  apply (registry_read_by_division registry_example
           (<["white" := ∅]> registry_example) leagues_example
           provider_example "green" []).
  vm_compute. reflexivity.
Defined.

(** An id that is not written the way [toString] writes it still locates
    the team, but not its registry entry. *)
Example padded_id_example :
  let registry : gmap string (gmap string OwnerInfo.t) :=
    {[ "green" := {[ "1" := OwnerInfo.mk (Some "Pat") (Some ["2019"]) ]} ]} in
  let answer teamId :=
    match (roster_handler registry leagues_example provider_example
             "green" teamId []).1 with
    | Ok body => Some (Roster.teamId body, Roster.teamName body, Roster.owner body)
    | Error _ _ => None
    end in
  answer "1" = Some (Some 1, "One", "Pat") ∧
  answer "01" = Some (Some 1, "One", EmptyString).
Proof. split; vm_compute; reflexivity. Qed.
